(** * A posting-list B-tree and its randomized selector

    Shallow embedding of [src/btree.ts] (classes [BTreeLeaf], [BTreeNode],
    [BTree]) and of the selector [quickSelect], followed by the invariants
    of the tree and the properties of lookup, range collection and
    selection.

    Conventions of the embedding.
    - Sort keys (the type parameter [T]) are integers, [Z]; document ids
      ([uint32]) are natural numbers, [N].
    - A [RoaringBitmap32] is a finite set of document ids, [gset N].  The
      code mutates bitmaps and arrays in place; the model returns the new
      value instead.  No bitmap or array is reachable from two live nodes:
      the slices produced by [split] share their elements with the node
      being split, and that node is dropped by its only caller.
    - A JavaScript run can stop with a [TypeError] (a method call on
      [undefined]); the model returns [TypeError] there.  Where the code
      would carry on with [undefined] in the place of a key or of a
      document id, the model returns [Undefined].
    - The recursion of [insert] and [quickSelect] is not structural; the
      model counts calls with a fuel argument and returns [OutOfFuel] when
      the budget is spent. *)

From stdpp Require Import gmap list sorting.

Set Warnings "-clear-no-such-hyp".
Set Default Goal Selector "!".

(** ** Outcomes *)

Inductive result (A : Type) : Type :=
| Ok (a : A)
| TypeError
| Undefined
| OutOfFuel.
Arguments Ok {A} a.
Arguments TypeError {A}.
Arguments Undefined {A}.
Arguments OutOfFuel {A}.

#[global] Instance result_ret : MRet result := λ A a, Ok a.
#[global] Instance result_bind : MBind result := λ A B f m,
  match m with
  | Ok a => f a
  | TypeError => TypeError
  | Undefined => Undefined
  | OutOfFuel => OutOfFuel
  end.

(** ** The bitmap primitive *)

(** Modelled from the spec: the external compressed integer set
    (RoaringBitmap32, spec section 6) is a finite set of ids. *)
Abbreviation bitmap := (gset N).

(** [bitmap.add(value)] *)
Definition add (b : bitmap) (value : N) : bitmap := {[value]} ∪ b.

(** [accumulator.orInPlace(other)] *)
Definition orInPlace (accumulator other : bitmap) : bitmap := accumulator ∪ other.

(** [RoaringBitmap32.and(a, b)] *)
Definition and (a b : bitmap) : bitmap := a ∩ b.

(** [bitmap.select(rank)]: the element of rank [rank] in increasing order,
    [undefined] when the rank is out of range. *)
Definition select (b : bitmap) (rank : nat) : option N :=
  merge_sort N.le (elements b) !! rank.

(** ** Arrays *)

(** [array.splice(i, 0, x)] *)
Definition splice {A} (i : nat) (x : A) (l : list A) : list A :=
  take i l ++ x :: drop i l.

(** ** Tree elements *)

Definition MAX_NODE_SIZE : nat := 32.
Definition MAX_LEAF_SIZE : nat := 32.

#[warnings="-register-all"]
Inductive BTreeElement : Type :=
| BTreeLeaf (keys : list Z) (values : list bitmap)
| BTreeNode (keys : list Z) (children : list BTreeElement) (covering : bitmap).

Definition SplitResult : Type := Z * BTreeElement * BTreeElement.

(** [this.children[i].method(...)]: a [TypeError] when there is no child
    at index [i]. *)
Definition at_child {A} (f : BTreeElement → result A)
  : list BTreeElement → nat → result A :=
  fix go children i :=
    match children with
    | [] => TypeError
    | c :: cs => match i with 0 => f c | S j => go cs j end
    end.

(** *** Leaves *)

(** [_findIndex]: the loop [for (; i < length && key >= keys[i]; ++i)]. *)
Fixpoint findIndex (keys : list Z) (key : Z) : nat :=
  match keys with
  | [] => 0
  | k :: ks => if (key >=? k)%Z then S (findIndex ks key) else 0
  end.

(** [BTreeLeaf.get]: with [i = _findIndex(key) - 1], index [-1] reads
    [undefined], which is not [== key]. *)
Definition leaf_get (keys : list Z) (values : list bitmap) (key : Z)
  : option bitmap :=
  match findIndex keys key with
  | 0 => None
  | S i =>
      match keys !! i with
      | Some k => if (k =? key)%Z then values !! i else None
      | None => None
      end
  end.

(** [BTreeLeaf.insert] *)
Definition leaf_insert (keys : list Z) (values : list bitmap)
  (key : Z) (value : N) : BTreeElement :=
  match leaf_get keys values key with
  | Some bitmap =>
      BTreeLeaf keys (<[findIndex keys key - 1 := add bitmap value]> values)
  | None =>
      let i := findIndex keys key in
      BTreeLeaf (splice i key keys) (splice i {[value]} values)
  end.

(** The ascending loops of a leaf,
    [for (i = 0; i < length && p(keys[i]); ++i) acc.orInPlace(values[i])];
    the two lists are the suffixes of [keys] and [values] from index [i]. *)
Fixpoint leaf_collect_up (p : Z → bool) (keys : list Z) (values : list bitmap)
  (accumulator : bitmap) : result bitmap :=
  match keys with
  | [] => Ok accumulator
  | k :: ks =>
      if p k then
        match values with
        | v :: vs => leaf_collect_up p ks vs (orInPlace accumulator v)
        | [] => TypeError
        end
      else Ok accumulator
  end.

(** The descending loops of a leaf,
    [for (i = length - 1; i >= 0 && p(keys[i]); --i) acc.orInPlace(values[i])];
    the counter [n] is [i + 1]. *)
Fixpoint leaf_collect_down (p : Z → bool) (keys : list Z) (values : list bitmap)
  (n : nat) (accumulator : bitmap) : result bitmap :=
  match n with
  | 0 => Ok accumulator
  | S i =>
      match keys !! i with
      | Some k =>
          if p k then
            match values !! i with
            | Some v => leaf_collect_down p keys values i (orInPlace accumulator v)
            | None => TypeError
            end
          else Ok accumulator
      | None => Ok accumulator
      end
  end.

(** *** Operations shared by both kinds of element *)

(** [full] *)
Definition full (e : BTreeElement) : bool :=
  match e with
  | BTreeLeaf keys _ => bool_decide (MAX_LEAF_SIZE ≤ length keys)
  | BTreeNode keys _ _ => bool_decide (MAX_NODE_SIZE ≤ length keys)
  end.

(** [collectAll]: a leaf adds every posting set, an inner node its cached
    covering set. *)
Definition collectAll (e : BTreeElement) (accumulator : bitmap) : result bitmap :=
  match e with
  | BTreeLeaf keys values => leaf_collect_up (λ _, true) keys values accumulator
  | BTreeNode _ _ covering => Ok (orInPlace accumulator covering)
  end.

(** The constructor of [BTreeNode]: the covering set is collected from the
    children, in order. *)
Fixpoint collectAll_children (children : list BTreeElement) (accumulator : bitmap)
  : result bitmap :=
  match children with
  | [] => Ok accumulator
  | c :: cs => acc ← collectAll c accumulator; collectAll_children cs acc
  end.

Definition new_BTreeNode (keys : list Z) (children : list BTreeElement)
  : result BTreeElement :=
  covering ← collectAll_children children ∅;
  Ok (BTreeNode keys children covering).

(** [split].  The median key is read at [floor(length / 2)]; the callers split
    full elements only, for which that index is in range. *)
Definition split (e : BTreeElement) : result SplitResult :=
  match e with
  | BTreeLeaf keys values =>
      let medianIdx := length keys / 2 in
      match keys !! medianIdx with
      | None => Undefined
      | Some medianKey =>
          Ok (medianKey,
              BTreeLeaf (take medianIdx keys) (take medianIdx values),
              BTreeLeaf (drop medianIdx keys) (drop medianIdx values))
      end
  | BTreeNode keys children _ =>
      let medianIdx := length keys / 2 in
      match keys !! medianIdx with
      | None => Undefined
      | Some medianKey =>
          left_ ← new_BTreeNode (take medianIdx keys) (take (medianIdx + 1) children);
          right_ ← new_BTreeNode (drop (medianIdx + 1) keys) (drop (medianIdx + 1) children);
          Ok (medianKey, left_, right_)
      end
  end.

(** *** Inner nodes *)

(** [_findChildIndex] is the same loop as [_findIndex]. *)
Definition findChildIndex (keys : list Z) (key : Z) : nat := findIndex keys key.

(** [get] *)
Fixpoint get (e : BTreeElement) (key : Z) : result (option bitmap) :=
  match e with
  | BTreeLeaf keys values => Ok (leaf_get keys values key)
  | BTreeNode keys children _ =>
      let i := findChildIndex keys key in
      at_child (λ c, get c key) children i
  end.

(** [insert] on an element.  The full child is replaced by its two halves and
    the insertion is evaluated again on the same node. *)
Fixpoint elem_insert (fuel : nat) (e : BTreeElement) (key : Z) (value : N)
  : result BTreeElement :=
  match fuel with
  | 0 => OutOfFuel
  | S fuel =>
      match e with
      | BTreeLeaf keys values => Ok (leaf_insert keys values key value)
      | BTreeNode keys children covering =>
          let i := findChildIndex keys key in
          match children !! i with
          | None => TypeError
          | Some c =>
              if full c then
                '(medianKey, left_, right_) ← split c;
                elem_insert fuel
                  (BTreeNode (splice i medianKey keys)
                             (<[i := left_]> (splice (i + 1) right_ children))
                             covering)
                  key value
              else
                c' ← elem_insert fuel c key value;
                Ok (BTreeNode keys (<[i := c']> children) (add covering value))
          end
      end
  end.

(** The descending loop of an inner node,
    [for (; i >= 0 && p(keys[i]); --i) children[i + 1].collectAll(acc)];
    the counter [n] is [i + 1], and the result carries the index [i + 1] of
    the child the caller descends into. *)
Fixpoint node_collect_down (p : Z → bool) (keys : list Z)
  (children : list BTreeElement) (n : nat) (accumulator : bitmap)
  : result (nat * bitmap) :=
  match n with
  | 0 => Ok (0, accumulator)
  | S i =>
      match keys !! i with
      | Some k =>
          if p k then
            acc ← at_child (λ c, collectAll c accumulator) children (i + 1);
            node_collect_down p keys children i acc
          else Ok (S i, accumulator)
      | None => Ok (S i, accumulator)
      end
  end.

(** The ascending loop of an inner node,
    [for (; i < length && p(keys[i]); ++i) children[i].collectAll(acc)];
    [keys] is the suffix of the separators from index [i]. *)
Fixpoint node_collect_up (p : Z → bool) (keys : list Z)
  (children : list BTreeElement) (i : nat) (accumulator : bitmap)
  : result (nat * bitmap) :=
  match keys with
  | [] => Ok (i, accumulator)
  | k :: ks =>
      if p k then
        acc ← at_child (λ c, collectAll c accumulator) children i;
        node_collect_up p ks children (i + 1) acc
      else Ok (i, accumulator)
  end.

(** [collectGt]: a leaf tests [key > this.keys[i]], an inner node
    [this.keys[i] > key]. *)
Fixpoint collectGt (e : BTreeElement) (accumulator : bitmap) (key : Z)
  : result bitmap :=
  match e with
  | BTreeLeaf keys values =>
      leaf_collect_down (λ k, key >? k)%Z keys values (length keys) accumulator
  | BTreeNode keys children _ =>
      '(i, acc) ← node_collect_down (λ k, k >? key)%Z keys children
                    (length keys) accumulator;
      at_child (λ c, collectGt c acc key) children i
  end.

(** [collectGte] *)
Fixpoint collectGte (e : BTreeElement) (accumulator : bitmap) (key : Z)
  : result bitmap :=
  match e with
  | BTreeLeaf keys values =>
      leaf_collect_down (λ k, key >=? k)%Z keys values (length keys) accumulator
  | BTreeNode keys children _ =>
      '(i, acc) ← node_collect_down (λ k, k >=? key)%Z keys children
                    (length keys) accumulator;
      at_child (λ c, collectGte c acc key) children i
  end.

(** [collectLt] *)
Fixpoint collectLt (e : BTreeElement) (accumulator : bitmap) (key : Z)
  : result bitmap :=
  match e with
  | BTreeLeaf keys values =>
      leaf_collect_up (λ k, key <? k)%Z keys values accumulator
  | BTreeNode keys children _ =>
      '(i, acc) ← node_collect_up (λ k, k <? key)%Z keys children 0 accumulator;
      at_child (λ c, collectLt c acc key) children i
  end.

(** [collectLte] *)
Fixpoint collectLte (e : BTreeElement) (accumulator : bitmap) (key : Z)
  : result bitmap :=
  match e with
  | BTreeLeaf keys values =>
      leaf_collect_up (λ k, key <=? k)%Z keys values accumulator
  | BTreeNode keys children _ =>
      '(i, acc) ← node_collect_up (λ k, k <=? key)%Z keys children 0 accumulator;
      at_child (λ c, collectLte c acc key) children i
  end.

(** ** The tree *)

Record BTree : Type := { root : BTreeElement }.

(** The constructor of [BTree]. *)
Definition new_BTree : BTree := {| root := BTreeLeaf [] [] |}.

(** [BTree.insert], with a budget of calls shared with [elem_insert]. *)
Fixpoint BTree_insert_fuel (fuel : nat) (t : BTree) (key : Z) (value : N)
  : result BTree :=
  match fuel with
  | 0 => OutOfFuel
  | S fuel =>
      if full (root t) then
        '(medianKey, left_, right_) ← split (root t);
        r ← new_BTreeNode [medianKey] [left_; right_];
        BTree_insert_fuel fuel {| root := r |} key value
      else
        r ← elem_insert fuel (root t) key value;
        Ok {| root := r |}
  end.

(** The longest chain of children below an element. *)
Fixpoint height (e : BTreeElement) : nat :=
  match e with
  | BTreeLeaf _ _ => 0
  | BTreeNode _ children _ => S (max_list (map height children))
  end.

(** [BTree.insert].  Two calls per level and two for a root split are all the
    code makes on a tree it has built itself; see [BTree_insert_fuel_mono]
    for the independence of the result from a larger budget. *)
Definition BTree_insert (t : BTree) (key : Z) (value : N) : result BTree :=
  BTree_insert_fuel (2 * height (root t) + 5) t key value.

Definition BTree_get (t : BTree) (key : Z) : result (option bitmap) :=
  get (root t) key.

Definition BTree_gt (t : BTree) (key : Z) : result bitmap :=
  collectGt (root t) ∅ key.

Definition BTree_gte (t : BTree) (key : Z) : result bitmap :=
  collectGte (root t) ∅ key.

Definition BTree_lt (t : BTree) (key : Z) : result bitmap :=
  collectLt (root t) ∅ key.

Definition BTree_lte (t : BTree) (key : Z) : result bitmap :=
  collectLte (root t) ∅ key.

(** A sequence of [insert] calls on a tree, in order. *)
Fixpoint insert_all (t : BTree) (ops : list (Z * N)) : result BTree :=
  match ops with
  | [] => Ok t
  | (key, value) :: ops => t' ← BTree_insert t key value; insert_all t' ops
  end.

(** The tree built from the empty tree by a sequence of [insert] calls. *)
Definition build (ops : list (Z * N)) : result BTree := insert_all new_BTree ops.

(** ** The selector *)

(** [Math.floor(Math.random() * cardinality)]: the oracle supplies an
    arbitrary number, reduced to an index below [cardinality] (index 0 when
    [cardinality] is 0). *)
Definition random_index (draw cardinality : nat) : nat :=
  match cardinality with
  | 0 => 0
  | S _ => draw mod cardinality
  end.

(** [quickSelect].  [rand 0] is the draw of this call, [rand (S n)] the draw
    of the call at depth [n + 1]. *)
Fixpoint quickSelect (fuel : nat) (rand : nat → nat) (results : bitmap)
  (cardinality : nat) (sortField : BTree) (sortDocVals : gmap N Z) : result N :=
  match fuel with
  | 0 => OutOfFuel
  | S fuel =>
      let pivotIndex := random_index (rand 0) cardinality in
      match select results pivotIndex with
      | None => Undefined
      | Some pivot =>
          match sortDocVals !! pivot with
          | None => Undefined
          | Some pivotValue =>
              g ← BTree_gt sortField pivotValue;
              let leftResults := and results g in
              let cardinality := size leftResults in
              if bool_decide (cardinality = 0) then Ok pivot
              else quickSelect fuel (λ n, rand (S n)) leftResults cardinality
                     sortField sortDocVals
          end
      end
  end.

(** ** What a tree holds, and its invariant *)

(** The union of the posting sets of every key stored below an element,
    read from the leaves only (no covering set is consulted). *)
Fixpoint docs (e : BTreeElement) : bitmap :=
  match e with
  | BTreeLeaf keys values => ⋃ (take (length keys) values)
  | BTreeNode _ children _ => ⋃ (map docs children)
  end.

(** Every element below (and including) an element. *)
Fixpoint subtrees (e : BTreeElement) : list BTreeElement :=
  match e with
  | BTreeLeaf _ _ => [e]
  | BTreeNode _ children _ => e :: concat (map subtrees children)
  end.

(** Strictly increasing, by index. *)
Definition sorted (keys : list Z) : Prop :=
  ∀ i j a b, keys !! i = Some a → keys !! j = Some b → i < j → (a < b)%Z.

(** Optional bounds of a subtree: keys [k] with [lo ≤ k < hi]. *)
Definition lo_le (lo : option Z) (k : Z) : Prop :=
  match lo with Some l => (l ≤ k)%Z | None => True end.
Definition lo_lt (lo : option Z) (k : Z) : Prop :=
  match lo with Some l => (l < k)%Z | None => True end.
Definition lt_hi (k : Z) (hi : option Z) : Prop :=
  match hi with Some h => (k < h)%Z | None => True end.

(** The bounds of child [j] of a node with separators [keys]. *)
Definition child_lo (lo : option Z) (keys : list Z) (j : nat) : option Z :=
  match j with
  | 0 => lo
  | S j' => match keys !! j' with Some k => Some k | None => lo end
  end.
Definition child_hi (hi : option Z) (keys : list Z) (j : nat) : option Z :=
  match keys !! j with Some k => Some k | None => hi end.

(** The invariant of an element of height [h] whose keys lie in [lo, hi). *)
Fixpoint wf (h : nat) (lo hi : option Z) (e : BTreeElement) : Prop :=
  match h, e with
  | 0, BTreeLeaf keys values =>
      length values = length keys ∧
      length keys ≤ MAX_LEAF_SIZE ∧
      sorted keys ∧
      (∀ i k, keys !! i = Some k → lo_le lo k ∧ lt_hi k hi)
  | S h', BTreeNode keys children covering =>
      length children = S (length keys) ∧
      length keys ≤ MAX_NODE_SIZE ∧
      sorted keys ∧
      (∀ i k, keys !! i = Some k → lo_lt lo k ∧ lt_hi k hi) ∧
      (∀ j c, children !! j = Some c →
              wf h' (child_lo lo keys j) (child_hi hi keys j) c) ∧
      covering = ⋃ (map docs children)
  | _, _ => False
  end.

Definition wf_tree (t : BTree) : Prop := ∃ h, wf h None None (root t).

(** The naive reference structure: one posting set per key, no tree. *)
Definition reference_insert (m : gmap Z bitmap) (key : Z) (value : N)
  : gmap Z bitmap :=
  <[key := add (default ∅ (m !! key)) value]> m.

Definition reference (ops : list (Z * N)) : gmap Z bitmap :=
  fold_left (λ m op, reference_insert m op.1 op.2) ops ∅.

(** The keys array of an element. *)
Definition keys_of (e : BTreeElement) : list Z :=
  match e with
  | BTreeLeaf keys _ => keys
  | BTreeNode keys _ _ => keys
  end.

(** The values array of an element (an inner node has none). *)
Definition values_of (e : BTreeElement) : list bitmap :=
  match e with
  | BTreeLeaf _ values => values
  | BTreeNode _ _ _ => []
  end.

(** ** Concrete inputs *)

(** The insertion scenario: keys 5, 3, 8, 1, 9, 2, 7 with documents
    100..106. *)
Definition scenario : list (Z * N) :=
  [(5%Z, 100%N); (3%Z, 101%N); (8%Z, 102%N); (1%Z, 103%N); (9%Z, 104%N);
   (2%Z, 105%N); (7%Z, 106%N)].

(** A full leaf: keys 0..31, key [i] holding document [i]. *)
Definition full_leaf_example : BTreeElement :=
  BTreeLeaf (map Z.of_nat (seq 0 32)) (map (λ n, {[N.of_nat n]}) (seq 0 32)).

(** Forty insertions with increasing keys: the root leaf is split once. *)
Definition forty : list (Z * N) :=
  map (λ n, (Z.of_nat n, N.of_nat n)) (seq 0 40).

(** The selector scenario: candidates 1..4 with sort values 10, 30, 30, 5. *)
Definition selector_ops : list (Z * N) :=
  [(10%Z, 1%N); (30%Z, 2%N); (30%Z, 3%N); (5%Z, 4%N)].
Definition selector_candidates : bitmap := {[1%N; 2%N; 3%N; 4%N]}.
Definition selector_values : gmap N Z :=
  {[1%N := 10%Z; 2%N := 30%Z; 3%N := 30%Z; 4%N := 5%Z]}.

(** The children array of an element (a leaf has none). *)
Definition children_of (e : BTreeElement) : list BTreeElement :=
  match e with
  | BTreeLeaf _ _ => []
  | BTreeNode _ children _ => children
  end.

(** Every key stored in a leaf below an element, from left to right. *)
Fixpoint leaf_keys (e : BTreeElement) : list Z :=
  match e with
  | BTreeLeaf keys _ => keys
  | BTreeNode _ children _ => concat (map leaf_keys children)
  end.

(** A full inner node: separators 0..31 over 33 empty leaves. *)
Definition full_node_example : BTreeElement :=
  BTreeNode (map Z.of_nat (seq 0 32)) (replicate 33 (BTreeLeaf [] [])) ∅.

(** Thirty-two insertions with increasing keys: the root leaf is full. *)
Definition thirty_two : list (Z * N) :=
  map (λ n, (Z.of_nat n, N.of_nat n)) (seq 0 32).

(** At least half full: what [split] leaves in each half of a full element
    ([floor(size / 2)] keys in a leaf, one less in the right half of an inner
    node). *)
Definition half_full (e : BTreeElement) : Prop :=
  match e with
  | BTreeLeaf keys _ => MAX_LEAF_SIZE / 2 ≤ length keys
  | BTreeNode keys _ _ => MAX_NODE_SIZE / 2 - 1 ≤ length keys
  end.

(** Every element below the given one, itself excepted, is at least half
    full. *)
#[warnings="-register-all"]
Inductive occupied : BTreeElement → Prop :=
| occupied_leaf keys values : occupied (BTreeLeaf keys values)
| occupied_node keys children covering :
    Forall (λ c, half_full c ∧ occupied c) children →
    occupied (BTreeNode keys children covering).

(** What [get] answers once [(key, value)] has been added, from what it
    answered before. *)
Definition updated (key : Z) (value : N) (key' : Z) (o o' : option bitmap)
  : option bitmap :=
  if decide (key' = key) then Some (add (default ∅ o) value) else o'.

(** What an insertion of [(key, value)] into [e] must establish of its
    result [e']. *)
Definition insert_post (h : nat) (lo hi : option Z) (key : Z) (value : N)
  (e e' : BTreeElement) : Prop :=
  wf h lo hi e' ∧
  docs e' = add (docs e) value ∧
  ∀ key' o o', get e key = Ok o → get e key' = Ok o' →
               get e' key' = Ok (updated key value key' o o').

(** * Proofs *)

(** ** Arrays and the scan *)

Lemma at_child_lookup {A} (f : BTreeElement → result A) children i :
  at_child f children i =
  match children !! i with Some c => f c | None => TypeError end.
Proof.
  revert i. induction children as [|c cs IH]; intros [|i]; simpl; auto.
Qed.

Lemma get_node keys children covering key :
  get (BTreeNode keys children covering) key =
  match children !! findChildIndex keys key with
  | Some c => get c key
  | None => TypeError
  end.
Proof. simpl. apply at_child_lookup. Qed.

Lemma lookup_splice {A} (l : list A) i x j :
  i ≤ length l →
  splice i x l !! j =
  if decide (j < i) then l !! j
  else if decide (j = i) then Some x else l !! (j - 1).
Proof.
  intros Hi. unfold splice.
  assert (Hlen : length (take i l) = i) by (rewrite length_take; lia).
  destruct (decide (j < i)) as [Hlt|Hge].
  - rewrite lookup_app_l by lia. apply lookup_take_lt. lia.
  - rewrite lookup_app_r by lia. rewrite Hlen.
    destruct (decide (j = i)) as [->|Hne].
    + by rewrite Nat.sub_diag.
    + destruct (j - i) as [|d] eqn:Hd; [lia|]. simpl.
      rewrite lookup_drop. f_equal. lia.
Qed.

Lemma length_splice {A} (l : list A) i x : length (splice i x l) = S (length l).
Proof.
  unfold splice. rewrite length_app. simpl. rewrite length_take, length_drop. lia.
Qed.

Lemma findIndex_le keys key : findIndex keys key ≤ length keys.
Proof.
  induction keys as [|k ks IH]; simpl; [lia|].
  destruct (key >=? k)%Z; lia.
Qed.

Lemma findIndex_before keys key j k :
  j < findIndex keys key → keys !! j = Some k → (k ≤ key)%Z.
Proof.
  revert j. induction keys as [|k0 ks IH]; intros j; simpl; [lia|].
  destruct (Z.geb_spec key k0) as [Hge|Hlt]; [|lia].
  destruct j as [|j]; simpl.
  - intros _ [= ->]. lia.
  - intros Hj. apply IH. lia.
Qed.

Lemma findIndex_at keys key k :
  keys !! findIndex keys key = Some k → (key < k)%Z.
Proof.
  induction keys as [|k0 ks IH]; simpl; [done|].
  destruct (Z.geb_spec key k0) as [Hge|Hlt]; simpl; [done|].
  intros [= ->]. lia.
Qed.

Lemma findIndex_unique keys key i :
  i ≤ length keys →
  (∀ k, keys !! i = Some k → (key < k)%Z) →
  (∀ j k, j < i → keys !! j = Some k → (k ≤ key)%Z) →
  findIndex keys key = i.
Proof.
  revert i. induction keys as [|k0 ks IH]; intros i Hi Hat Hbefore; simpl in *.
  - lia.
  - destruct (Z.geb_spec key k0) as [Hge|Hlt].
    + destruct i as [|i].
      * specialize (Hat k0 eq_refl). lia.
      * f_equal. apply IH; [lia|done|].
        intros j k Hj Hk. apply (Hbefore (S j)); [lia|done].
    + destruct i as [|i]; [done|].
      specialize (Hbefore 0 k0 ltac:(lia) eq_refl). lia.
Qed.

(** On a sorted array the scan is fixed by the two neighbours of its result. *)
Lemma findIndex_sorted keys key i :
  sorted keys →
  i ≤ length keys →
  (∀ k, keys !! i = Some k → (key < k)%Z) →
  (∀ k, keys !! (i - 1) = Some k → 0 < i → (k ≤ key)%Z) →
  findIndex keys key = i.
Proof.
  intros Hs Hi Hat Hprev. apply findIndex_unique; [done..|].
  intros j k Hj Hk.
  destruct (decide (j = i - 1)) as [->|Hne]; [apply Hprev; [done|lia]|].
  destruct (lookup_lt_is_Some_2 keys (i - 1)) as [k' Hk']; [lia|].
  specialize (Hs j (i - 1) k k' Hk Hk' ltac:(lia)).
  specialize (Hprev k' Hk' ltac:(lia)). lia.
Qed.

Lemma sorted_splice keys i key :
  sorted keys →
  i ≤ length keys →
  (∀ j k, j < i → keys !! j = Some k → (k < key)%Z) →
  (∀ j k, i ≤ j → keys !! j = Some k → (key < k)%Z) →
  sorted (splice i key keys).
Proof.
  intros Hs Hi Hlow Hhigh j1 j2 a b.
  rewrite !lookup_splice by done.
  repeat case_decide; intros Ha Hb Hlt; simplify_eq; try lia.
  - by eapply Hs.
  - by eapply Hlow.
  - eapply (Hs j1 (j2 - 1)); [done..|lia].
  - eapply (Hhigh (j2 - 1)); [lia|done].
  - eapply (Hs (j1 - 1) (j2 - 1)); [done..|lia].
Qed.

Lemma sorted_take keys n : sorted keys → sorted (take n keys).
Proof.
  intros Hs i j a b Ha Hb Hlt.
  apply lookup_take_Some in Ha as [Ha _], Hb as [Hb _]. by eapply Hs.
Qed.

Lemma sorted_drop keys n : sorted keys → sorted (drop n keys).
Proof.
  intros Hs i j a b. rewrite !lookup_drop. intros Ha Hb Hlt.
  eapply Hs; [done..|lia].
Qed.

Lemma sorted_StronglySorted keys : sorted keys → StronglySorted Z.lt keys.
Proof.
  induction keys as [|k ks IH]; intros Hs; constructor.
  - apply IH. intros i j a b Ha Hb Hlt. apply (Hs (S i) (S j)); [done..|lia].
  - apply Forall_forall. intros x Hx.
    apply list_elem_of_lookup in Hx as [i Hi].
    apply (Hs 0 (S i)); [done..|lia].
Qed.

Lemma union_list_insert (l : list bitmap) i x b :
  l !! i = Some b → ⋃ (<[i := x ∪ b]> l) = x ∪ ⋃ l.
Proof.
  revert i. induction l as [|y l IH]; intros [|i] Hi; simplify_eq/=.
  - set_solver.
  - rewrite (IH i) by done. set_solver.
Qed.

Lemma union_list_splice (l : list bitmap) i x :
  ⋃ (splice i x l) = x ∪ ⋃ l.
Proof.
  unfold splice. rewrite union_list_app_L, union_list_cons.
  rewrite <- (take_drop i l) at 3. rewrite union_list_app_L. set_solver.
Qed.

(** ** Leaves *)

Lemma leaf_get_Some keys values key s :
  leaf_get keys values key = Some s →
  ∃ i, findIndex keys key = S i ∧ keys !! i = Some key ∧ values !! i = Some s.
Proof.
  unfold leaf_get. destruct (findIndex keys key) as [|i]; [done|].
  destruct (keys !! i) as [k|] eqn:Hk; [|done].
  destruct (Z.eqb_spec k key) as [->|]; [|done]. eauto.
Qed.

Lemma leaf_get_lookup keys values i key :
  sorted keys → keys !! i = Some key →
  leaf_get keys values key = values !! i.
Proof.
  intros Hs Hi. unfold leaf_get.
  assert (findIndex keys key = S i) as ->.
  { apply findIndex_sorted; [done|..].
    - apply lookup_lt_Some in Hi. lia.
    - intros k Hk. apply (Hs i (S i)); [done..|lia].
    - simpl. rewrite Nat.sub_0_r, Hi. intros k [= ->]. lia. }
  by rewrite Hi, Z.eqb_refl.
Qed.

Lemma leaf_get_None keys values key :
  key ∉ keys → leaf_get keys values key = None.
Proof.
  intros Hnot. destruct (leaf_get keys values key) as [s|] eqn:Hget; [|done].
  apply leaf_get_Some in Hget as (i & _ & Hi & _).
  destruct Hnot. by eapply list_elem_of_lookup_2.
Qed.

Lemma leaf_insert_spec lo hi keys values key value :
  wf 0 lo hi (BTreeLeaf keys values) →
  length keys < MAX_LEAF_SIZE →
  lo_le lo key → lt_hi key hi →
  ∃ keys' values',
    leaf_insert keys values key value = BTreeLeaf keys' values' ∧
    wf 0 lo hi (BTreeLeaf keys' values') ∧
    ⋃ values' = add (⋃ values) value ∧
    ∀ key', leaf_get keys' values' key' =
            updated key value key' (leaf_get keys values key)
              (leaf_get keys values key').
Proof.
  intros (Hlen & Hmax & Hs & Hb) Hroom Hlo Hhi. unfold leaf_insert.
  destruct (leaf_get keys values key) as [b|] eqn:Hget.
  - apply leaf_get_Some in Hget as (i & Hfi & Hki & Hvi).
    rewrite Hfi. simpl. rewrite Nat.sub_0_r.
    eexists _, _. split; [done|]. split; [|split].
    + simpl. by rewrite length_insert.
    + unfold add. by apply union_list_insert.
    + intros key'. unfold updated, leaf_get.
      case_decide as Hk; [subst key'|].
      * rewrite Hfi, Hki, Z.eqb_refl.
        rewrite list_lookup_insert_eq; [done|]. by eapply lookup_lt_Some.
      * destruct (findIndex keys key') as [|j] eqn:Hfj; [done|].
        destruct (keys !! j) as [k|] eqn:Hkj; [|done].
        destruct (Z.eqb_spec k key') as [->|]; [|done].
        rewrite list_lookup_insert_ne; [done|]. congruence.
  - set (i := findIndex keys key).
    assert (Hi : i ≤ length keys) by apply findIndex_le.
    assert (Hnotin : key ∉ keys).
    { intros Hin. apply list_elem_of_lookup in Hin as [j Hj].
      rewrite (leaf_get_lookup _ _ j) in Hget by done.
      apply lookup_ge_None in Hget. apply lookup_lt_Some in Hj. lia. }
    assert (Hs' : sorted (splice i key keys)).
    { apply sorted_splice; [done..| |].
      - intros j k Hj Hk.
        assert (k ≠ key) by (intros ->; destruct Hnotin; by eapply list_elem_of_lookup_2).
        pose proof (findIndex_before _ _ _ _ Hj Hk). lia.
      - intros j k Hj Hk.
        destruct (lookup_lt_is_Some_2 keys i) as [k' Hk'].
        { apply lookup_lt_Some in Hk. lia. }
        pose proof (findIndex_at _ _ _ Hk').
        destruct (decide (i = j)) as [->|]; [congruence|].
        specialize (Hs i j k' k Hk' Hk ltac:(lia)). lia. }
    eexists _, _. split; [done|]. split; [|split].
    + simpl. rewrite !length_splice. split; [lia|]. split; [unfold MAX_LEAF_SIZE in *; lia|].
      split; [done|]. intros j k. rewrite lookup_splice by done.
      repeat case_decide; intros; simplify_eq; eauto.
    + unfold add. apply union_list_splice.
    + intros key'. unfold updated. case_decide as Hk; [subst key'|].
      * rewrite (leaf_get_lookup _ _ i) by (done || rewrite lookup_splice by done;
          repeat case_decide; (done || lia)).
        rewrite lookup_splice by lia. repeat case_decide; try lia.
        simpl. unfold add. f_equal. set_solver.
      * destruct (decide (key' ∈ keys)) as [Hin|Hnot'].
        -- apply list_elem_of_lookup in Hin as [j Hj].
           rewrite (leaf_get_lookup keys values j) by done.
           destruct (decide (j < i)).
           ++ rewrite (leaf_get_lookup _ _ j); [|done|].
              ** rewrite lookup_splice by lia. by rewrite decide_True.
              ** rewrite lookup_splice by lia. by rewrite decide_True.
           ++ rewrite (leaf_get_lookup _ _ (S j)); [|done|].
              ** rewrite lookup_splice by lia.
                 rewrite decide_False, decide_False by lia.
                 simpl. by rewrite Nat.sub_0_r.
              ** rewrite lookup_splice by lia.
                 rewrite decide_False, decide_False by lia.
                 simpl. by rewrite Nat.sub_0_r.
        -- rewrite (leaf_get_None keys) by done.
           apply leaf_get_None. intros Hin.
           apply list_elem_of_lookup in Hin as [j Hj].
           rewrite lookup_splice in Hj by done.
           repeat case_decide; simplify_eq;
             destruct Hnot'; by eapply list_elem_of_lookup_2.
Qed.

Lemma leaf_collect_all keys values accumulator :
  length keys ≤ length values →
  leaf_collect_up (λ _, true) keys values accumulator =
  Ok (accumulator ∪ ⋃ (take (length keys) values)).
Proof.
  revert values accumulator.
  induction keys as [|k ks IH]; intros values accumulator Hlen; simpl.
  - f_equal. set_solver.
  - destruct values as [|v vs]; simpl in *; [lia|].
    rewrite IH by lia. unfold orInPlace. f_equal. set_solver.
Qed.

Lemma docs_leaf keys values :
  length values = length keys → docs (BTreeLeaf keys values) = ⋃ values.
Proof. intros Hlen. simpl. by rewrite take_ge by lia. Qed.

(** ** Well-formed elements *)

Lemma collectAll_wf h lo hi e accumulator :
  wf h lo hi e → collectAll e accumulator = Ok (accumulator ∪ docs e).
Proof.
  destruct h, e; simpl; try done.
  - intros (Hlen & _). apply leaf_collect_all. lia.
  - intros (_ & _ & _ & _ & _ & ->). done.
Qed.

Lemma collectAll_children_wf children accumulator :
  (∀ c, c ∈ children → ∃ h lo hi, wf h lo hi c) →
  collectAll_children children accumulator =
  Ok (accumulator ∪ ⋃ (map docs children)).
Proof.
  revert accumulator.
  induction children as [|c cs IH]; intros accumulator Hwf; simpl.
  - f_equal. set_solver.
  - destruct (Hwf c) as (h & lo & hi & Hc); [by left|].
    rewrite (collectAll_wf _ _ _ _ _ Hc). simpl.
    rewrite IH by (intros; apply Hwf; by right). f_equal. set_solver.
Qed.

Lemma new_BTreeNode_wf keys children :
  (∀ c, c ∈ children → ∃ h lo hi, wf h lo hi c) →
  new_BTreeNode keys children =
  Ok (BTreeNode keys children (⋃ (map docs children))).
Proof.
  intros Hwf. unfold new_BTreeNode.
  rewrite collectAll_children_wf by done. simpl. do 2 f_equal. set_solver.
Qed.

Lemma get_total h lo hi e key : wf h lo hi e → ∃ o, get e key = Ok o.
Proof.
  revert lo hi e. induction h as [|h IH]; intros lo hi [keys values|keys children covering];
    try done.
  - simpl. eauto.
  - intros (Hlen & _ & _ & _ & Hch & _). rewrite get_node.
    destruct (lookup_lt_is_Some_2 children (findChildIndex keys key)) as [c Hc].
    { pose proof (findIndex_le keys key). unfold findChildIndex. lia. }
    rewrite Hc. eapply IH. by apply Hch.
Qed.

Lemma max_list_const (l : list nat) h :
  l ≠ [] → (∀ x, x ∈ l → x = h) → max_list l = h.
Proof.
  induction l as [|x l IH]; intros Hne Hall; [done|]. simpl.
  rewrite (Hall x) by left.
  destruct l as [|y l]; [simpl; lia|].
  rewrite IH; [lia|done|]. intros z Hz. apply Hall. by right.
Qed.

Lemma wf_height h lo hi e : wf h lo hi e → height e = h.
Proof.
  revert lo hi e. induction h as [|h IH]; intros lo hi [keys values|keys children covering];
    try done.
  intros (Hlen & _ & _ & _ & Hch & _). simpl. f_equal.
  apply max_list_const.
  - destruct children; [simpl in Hlen; lia|done].
  - intros x Hx. apply list_elem_of_fmap in Hx as (c & -> & Hc).
    apply list_elem_of_lookup in Hc as [j Hj]. eapply IH. by apply Hch.
Qed.

(** ** Splitting a full element *)

Lemma full_leaf_length lo hi keys values :
  wf 0 lo hi (BTreeLeaf keys values) → full (BTreeLeaf keys values) = true →
  length keys = 32.
Proof.
  intros (_ & Hmax & _) Hfull. simpl in Hfull. apply bool_decide_eq_true in Hfull.
  unfold MAX_LEAF_SIZE in *. lia.
Qed.

Lemma full_node_length h lo hi keys children covering :
  wf (S h) lo hi (BTreeNode keys children covering) →
  full (BTreeNode keys children covering) = true →
  length keys = 32.
Proof.
  intros (_ & Hmax & _) Hfull. simpl in Hfull. apply bool_decide_eq_true in Hfull.
  unfold MAX_NODE_SIZE in *. lia.
Qed.

(** What [split] returns on a full element: the two halves are well formed
    on either side of the median key, neither is full, and together they hold
    what the element held. *)
Lemma split_wf h lo hi e :
  wf h lo hi e → full e = true →
  ∃ m l r,
    split e = Ok (m, l, r) ∧
    lo_lt lo m ∧ lt_hi m hi ∧
    wf h lo (Some m) l ∧ wf h (Some m) hi r ∧
    full l = false ∧ full r = false ∧
    docs l ∪ docs r = docs e ∧
    ∀ key, get e key = if decide (key < m)%Z then get l key else get r key.
Proof.
  destruct h as [|h], e as [keys values|keys children covering]; try done.
  - intros Hwf Hfull.
    pose proof (full_leaf_length _ _ _ _ Hwf Hfull) as Hn.
    destruct Hwf as (Hlen & Hmax & Hs & Hb).
    destruct (lookup_lt_is_Some_2 keys 16) as [m Hm]; [lia|].
    destruct (lookup_lt_is_Some_2 keys 0) as [k0 Hk0]; [lia|].
    pose proof (Hs 0 16 k0 m Hk0 Hm ltac:(lia)) as Hk0m.
    exists m, (BTreeLeaf (take 16 keys) (take 16 values)),
      (BTreeLeaf (drop 16 keys) (drop 16 values)).
    split; [unfold split; rewrite Hn; change (32 / 2) with 16; by rewrite Hm|].
    split; [destruct (Hb 0 k0 Hk0) as [Hlo _]; destruct lo; simpl in *; lia|].
    split; [by destruct (Hb 16 m Hm)|].
    split; [|split; [|split; [|split; [|split]]]].
    + simpl. rewrite !length_take. split; [lia|]. split; [unfold MAX_LEAF_SIZE; lia|].
      split; [by apply sorted_take|].
      intros i k Hk. apply lookup_take_Some in Hk as [Hk Hi].
      split; [by destruct (Hb i k Hk)|]. simpl. by eapply (Hs i 16).
    + simpl. rewrite !length_drop. split; [lia|]. split; [unfold MAX_LEAF_SIZE; lia|].
      split; [by apply sorted_drop|].
      intros i k. rewrite lookup_drop. intros Hk.
      split; [|by destruct (Hb _ k Hk)]. simpl.
      destruct i as [|i]; [rewrite Nat.add_0_r in Hk; simplify_eq; lia|].
      pose proof (Hs 16 (16 + S i) m k Hm Hk ltac:(lia)). lia.
    + simpl. rewrite length_take. apply bool_decide_eq_false. unfold MAX_LEAF_SIZE. lia.
    + simpl. rewrite length_drop. apply bool_decide_eq_false. unfold MAX_LEAF_SIZE. lia.
    + rewrite !docs_leaf by (rewrite ?length_take, ?length_drop; lia).
      rewrite <- union_list_app_L. by rewrite take_drop.
    + intros key. simpl. case_decide as Hkm; f_equal.
      * destruct (decide (key ∈ keys)) as [Hin|Hnot].
        -- apply list_elem_of_lookup in Hin as [j Hj].
           assert (j < 16).
           { destruct (decide (j < 16)); [done|].
             destruct (decide (j = 16)) as [->|]; [simplify_eq; lia|].
             pose proof (Hs 16 j m key Hm Hj ltac:(lia)). lia. }
           rewrite (leaf_get_lookup keys values j) by done.
           rewrite (leaf_get_lookup (take 16 keys) _ j).
           ++ by rewrite lookup_take_lt.
           ++ by apply sorted_take.
           ++ by rewrite lookup_take_lt.
        -- rewrite !leaf_get_None; [done| |done].
           intros Hin. apply Hnot. by eapply subseteq_take.
      * destruct (decide (key ∈ keys)) as [Hin|Hnot].
        -- apply list_elem_of_lookup in Hin as [j Hj].
           assert (16 ≤ j).
           { destruct (decide (16 ≤ j)); [done|].
             pose proof (Hs j 16 key m Hj Hm ltac:(lia)). lia. }
           rewrite (leaf_get_lookup keys values j) by done.
           rewrite (leaf_get_lookup (drop 16 keys) _ (j - 16)).
           ++ rewrite lookup_drop. f_equal. lia.
           ++ by apply sorted_drop.
           ++ rewrite lookup_drop. rewrite <- Hj. f_equal. lia.
        -- rewrite !leaf_get_None; [done| |done].
           intros Hin. apply Hnot. by eapply subseteq_drop.
  - intros Hwf Hfull.
    pose proof (full_node_length _ _ _ _ _ _ Hwf Hfull) as Hn.
    destruct Hwf as (Hlen & Hmax & Hs & Hb & Hch & Hcov).
    destruct (lookup_lt_is_Some_2 keys 16) as [m Hm]; [lia|].
    assert (Hwfc : ∀ c, c ∈ children → ∃ h' lo' hi', wf h' lo' hi' c).
    { intros c Hc. apply list_elem_of_lookup in Hc as [j Hj].
      eexists _, _, _. by apply Hch. }
    exists m, (BTreeNode (take 16 keys) (take 17 children)
                 (⋃ (map docs (take 17 children)))),
      (BTreeNode (drop 17 keys) (drop 17 children)
         (⋃ (map docs (drop 17 children)))).
    split.
    { unfold split. rewrite Hn. change (32 / 2) with 16. rewrite Hm.
      change (16 + 1) with 17.
      rewrite !new_BTreeNode_wf; [done|..].
      - intros c Hc. apply Hwfc. by eapply subseteq_take.
      - intros c Hc. apply Hwfc. by eapply subseteq_drop. }
    split; [by destruct (Hb 16 m Hm)|].
    split; [by destruct (Hb 16 m Hm)|].
    split; [|split; [|split; [|split; [|split]]]].
    + simpl. rewrite !length_take. split; [lia|]. split; [unfold MAX_NODE_SIZE; lia|].
      split; [by apply sorted_take|].
      split.
      { intros i k Hk. apply lookup_take_Some in Hk as [Hk Hi].
        split; [by destruct (Hb i k Hk)|]. simpl. by eapply (Hs i 16). }
      split; [|done].
      intros j c Hc. apply lookup_take_Some in Hc as [Hc Hj].
      specialize (Hch j c Hc).
      replace (child_lo lo (take 16 keys) j) with (child_lo lo keys j).
      2:{ destruct j as [|j]; [done|]. simpl. rewrite lookup_take_lt by lia. done. }
      replace (child_hi (Some m) (take 16 keys) j) with (child_hi hi keys j); [done|].
      unfold child_hi. destruct (decide (j < 16)).
      * rewrite lookup_take_lt by lia.
        destruct (lookup_lt_is_Some_2 keys j) as [k ->]; [lia|done].
      * assert (j = 16) as -> by lia. rewrite Hm.
        by rewrite lookup_take_ge by lia.
    + simpl. rewrite !length_drop. split; [lia|]. split; [unfold MAX_NODE_SIZE; lia|].
      split; [by apply sorted_drop|].
      split.
      { intros i k. rewrite lookup_drop. intros Hk.
        split; [|by destruct (Hb _ k Hk)]. simpl.
        by eapply (Hs 16 (17 + i)); [..|lia]. }
      split; [|done].
      intros j c. rewrite lookup_drop. intros Hc.
      pose proof (lookup_lt_Some _ _ _ Hc) as Hj.
      specialize (Hch _ c Hc).
      replace (child_lo (Some m) (drop 17 keys) j) with (child_lo lo keys (17 + j)).
      2:{ destruct j as [|j].
          - change (17 + 0) with (S 16). unfold child_lo. by rewrite Hm.
          - change (17 + S j) with (S (17 + j)). unfold child_lo.
            rewrite lookup_drop.
            destruct (lookup_lt_is_Some_2 keys (17 + j)) as [k ->]; [lia|done]. }
      replace (child_hi hi (drop 17 keys) j) with (child_hi hi keys (17 + j)); [done|].
      unfold child_hi. by rewrite lookup_drop.
    + simpl. rewrite length_take. apply bool_decide_eq_false. unfold MAX_NODE_SIZE. lia.
    + simpl. rewrite length_drop. apply bool_decide_eq_false. unfold MAX_NODE_SIZE. lia.
    + simpl. rewrite <- union_list_app_L, <- map_app. by rewrite take_drop.
    + intros key. rewrite !get_node. unfold findChildIndex.
      case_decide as Hkm.
      * assert (Hf : findIndex keys key ≤ 16).
        { destruct (decide (findIndex keys key ≤ 16)); [done|].
          pose proof (findIndex_before keys key 16 m ltac:(lia) Hm). lia. }
        assert (findIndex (take 16 keys) key = findIndex keys key) as ->.
        { apply findIndex_unique.
          - rewrite length_take. lia.
          - intros k Hk. apply lookup_take_Some in Hk as [Hk _].
            by eapply findIndex_at.
          - intros j k Hj Hk. apply lookup_take_Some in Hk as [Hk _].
            by eapply findIndex_before. }
        by rewrite lookup_take_lt by lia.
      * assert (findIndex keys key = 17 + findIndex (drop 17 keys) key) as ->.
        { pose proof (findIndex_le (drop 17 keys) key) as Hle.
          rewrite length_drop in Hle.
          apply findIndex_unique.
          - lia.
          - intros k Hk. rewrite <- lookup_drop in Hk. by eapply findIndex_at.
          - intros j k Hj Hk. destruct (decide (j < 17)).
            + destruct (decide (j = 16)) as [->|]; [simplify_eq; lia|].
              pose proof (Hs j 16 k m Hk Hm ltac:(lia)). lia.
            + eapply (findIndex_before (drop 17 keys) key (j - 17)); [lia|].
              rewrite lookup_drop. rewrite <- Hk. f_equal. lia. }
        by rewrite lookup_drop.
Qed.

(** ** Inserting below an inner node *)

Lemma split_children (children : list BTreeElement) i c l r :
  children !! i = Some c →
  <[i := l]> (splice (i + 1) r children) =
  take i children ++ l :: r :: drop (S i) children.
Proof.
  intros Hc. unfold splice. replace (i + 1) with (S i) by lia.
  rewrite (take_S_r _ _ _ Hc), <- app_assoc. simpl.
  rewrite insert_app_r_alt by (rewrite length_take; lia).
  rewrite length_take_le by (apply lookup_lt_Some in Hc; lia).
  by rewrite Nat.sub_diag.
Qed.

Lemma lookup_split_children (children : list BTreeElement) i l r j :
  i < length children →
  (take i children ++ l :: r :: drop (S i) children) !! j =
  if decide (j < i) then children !! j
  else if decide (j = i) then Some l
  else if decide (j = S i) then Some r
  else children !! (j - 1).
Proof.
  intros Hi.
  assert (Hlen : length (take i children) = i) by (rewrite length_take; lia).
  repeat case_decide; subst.
  - rewrite lookup_app_l by lia. by apply lookup_take_lt.
  - rewrite lookup_app_r by lia. by rewrite Hlen, Nat.sub_diag.
  - rewrite lookup_app_r by lia. rewrite Hlen.
    by replace (S i - i) with 1 by lia.
  - rewrite lookup_app_r by lia. rewrite Hlen.
    destruct (j - i) as [|[|d]] eqn:Hd; [lia..|]. simpl.
    rewrite lookup_drop. f_equal. lia.
Qed.

Lemma child_hi_splice hi keys i m j :
  i ≤ length keys →
  child_hi hi (splice i m keys) j =
  if decide (j < i) then child_hi hi keys j
  else if decide (j = i) then Some m else child_hi hi keys (j - 1).
Proof.
  intros Hi. unfold child_hi. rewrite lookup_splice by done.
  by repeat case_decide.
Qed.

Lemma child_lo_splice lo keys i m j :
  i ≤ length keys →
  child_lo lo (splice i m keys) j =
  if decide (j ≤ i) then child_lo lo keys j
  else if decide (j = S i) then Some m else child_lo lo keys (j - 1).
Proof.
  intros Hi. destruct j as [|j].
  - by rewrite decide_True by lia.
  - unfold child_lo at 1. rewrite lookup_splice by done.
    repeat case_decide; try lia; try done.
    destruct j as [|j]; [lia|]. simpl. by rewrite !Nat.sub_0_r.
Qed.

(** The child an insertion descends into exists, and the key is within its
    bounds. *)
Lemma wf_node_child h lo hi keys children covering key :
  wf (S h) lo hi (BTreeNode keys children covering) →
  lo_le lo key → lt_hi key hi →
  let i := findIndex keys key in
  ∃ c, children !! i = Some c ∧
       wf h (child_lo lo keys i) (child_hi hi keys i) c ∧
       lo_le (child_lo lo keys i) key ∧ lt_hi key (child_hi hi keys i).
Proof.
  intros (Hlen & _ & _ & _ & Hch & _) Hlo Hhi i.
  pose proof (findIndex_le keys key) as Hle. fold i in Hle.
  destruct (lookup_lt_is_Some_2 children i) as [c Hc]; [lia|].
  exists c. split; [done|]. split; [by apply Hch|]. split.
  - unfold child_lo. destruct i as [|i'] eqn:Hi; [done|].
    destruct (keys !! i') as [k|] eqn:Hk; [|done]. simpl.
    eapply (findIndex_before keys key i'); [lia|done].
  - unfold child_hi. destruct (keys !! i) as [k|] eqn:Hk; [|done]. simpl.
    by eapply findIndex_at.
Qed.

Lemma node_descend h lo hi keys children covering key value c c' :
  wf (S h) lo hi (BTreeNode keys children covering) →
  children !! findIndex keys key = Some c →
  insert_post h (child_lo lo keys (findIndex keys key))
    (child_hi hi keys (findIndex keys key)) key value c c' →
  insert_post (S h) lo hi key value (BTreeNode keys children covering)
    (BTreeNode keys (<[findIndex keys key := c']> children) (add covering value)).
Proof.
  intros (Hlen & Hmax & Hs & Hb & Hch & Hcov) Hc (Hwf' & Hdocs & Hget).
  set (i := findIndex keys key) in *.
  assert (Hd : ⋃ map docs (<[i := c']> children) = add (⋃ map docs children) value).
  { change (map docs) with (fmap (M:=list) docs).
    rewrite list_fmap_insert, Hdocs. unfold add.
    apply union_list_insert. by rewrite list_lookup_fmap, Hc. }
  split; [|split].
  - simpl. rewrite length_insert. do 4 (split; [done|]). split.
    + intros j d. rewrite list_lookup_insert by (by eapply lookup_lt_Some).
      case_decide as Hj.
      * destruct Hj as [<- _]. by intros [= <-].
      * apply Hch.
    + rewrite Hd, Hcov. done.
  - simpl. apply Hd.
  - intros key' o o'. rewrite !get_node. unfold findChildIndex. fold i.
    rewrite Hc. intros Ho.
    destruct (decide (findIndex keys key' = i)) as [->|Hne].
    + rewrite Hc, list_lookup_insert_eq by (by eapply lookup_lt_Some).
      by apply Hget.
    + rewrite list_lookup_insert_ne by done.
      destruct (children !! findIndex keys key'); [|done].
      intros ->. unfold updated. rewrite decide_False; [done|].
      intros ->. by apply Hne.
Qed.

(** Replacing the full child an insertion would descend into by its two
    halves: the node stays well formed, answers every [get] as before, and the
    child the insertion now descends into is not full. *)
Lemma node_split_child h lo hi keys children covering key c :
  wf (S h) lo hi (BTreeNode keys children covering) →
  length keys < MAX_NODE_SIZE →
  children !! findIndex keys key = Some c →
  full c = true →
  ∃ m l r,
    split c = Ok (m, l, r) ∧
    let keys' := splice (findIndex keys key) m keys in
    let children' := <[findIndex keys key := l]>
                       (splice (findIndex keys key + 1) r children) in
    wf (S h) lo hi (BTreeNode keys' children' covering) ∧
    docs (BTreeNode keys' children' covering) = docs (BTreeNode keys children covering) ∧
    (∀ key', get (BTreeNode keys' children' covering) key' =
             get (BTreeNode keys children covering) key') ∧
    ∃ c', children' !! findIndex keys' key = Some c' ∧ full c' = false.
Proof.
  intros (Hlen & Hmax & Hs & Hb & Hch & Hcov) Hroom Hc Hfull.
  set (i := findIndex keys key) in *.
  pose proof (findIndex_le keys key) as Hi. fold i in Hi.
  pose proof (Hch i c Hc) as Hwfc.
  destruct (split_wf _ _ _ _ Hwfc Hfull)
    as (m & l & r & Hsplit & Hlom & Hmhi & Hwl & Hwr & Hfl & Hfr & Hdocs & Hget).
  exists m, l, r. split; [done|]. intros keys' children'.
  assert (Hci : i < length children) by (by eapply lookup_lt_Some).
  assert (Hch' : ∀ j, children' !! j =
    if decide (j < i) then children !! j
    else if decide (j = i) then Some l
    else if decide (j = S i) then Some r
    else children !! (j - 1)).
  { intros j. unfold children'. rewrite (split_children _ _ c) by done.
    by apply lookup_split_children. }
  assert (Hbefore : ∀ j k, j < i → keys !! j = Some k → (k < m)%Z).
  { intros j k Hj Hk. unfold child_lo in Hlom.
    destruct i as [|i']; [lia|].
    destruct (lookup_lt_is_Some_2 keys i') as [k' Hk']; [lia|].
    rewrite Hk' in Hlom. simpl in Hlom.
    destruct (decide (j = i')) as [->|]; [simplify_eq; lia|].
    pose proof (Hs j i' k k' Hk Hk' ltac:(lia)). lia. }
  assert (Hafter : ∀ j k, i ≤ j → keys !! j = Some k → (m < k)%Z).
  { intros j k Hj Hk. unfold child_hi in Hmhi.
    destruct (lookup_lt_is_Some_2 keys i) as [k' Hk'].
    { apply lookup_lt_Some in Hk. lia. }
    rewrite Hk' in Hmhi. simpl in Hmhi.
    destruct (decide (j = i)) as [->|]; [simplify_eq; lia|].
    pose proof (Hs i j k' k Hk' Hk ltac:(lia)). lia. }
  assert (Hfind : ∀ key',
    findIndex keys' key' =
    if decide (findIndex keys key' < i) then findIndex keys key'
    else if decide (i < findIndex keys key') then S (findIndex keys key')
    else if decide (key' < m)%Z then i else S i).
  { intros key'. pose proof (findIndex_le keys key') as Hle.
    apply findIndex_unique.
    - unfold keys'. rewrite length_splice. repeat case_decide; lia.
    - intros k. unfold keys'. rewrite lookup_splice by done.
      repeat case_decide; try lia; intros Hk; simplify_eq; try lia.
      + by eapply findIndex_at.
      + eapply findIndex_at. rewrite <- Hk. f_equal. lia.
      + eapply findIndex_at. rewrite <- Hk. f_equal. lia.
    - intros j k. unfold keys'. rewrite lookup_splice by done.
      repeat case_decide; try lia; intros Hj Hk; simplify_eq; try lia.
      all: try (eapply findIndex_before; [|done]; lia).
      + pose proof (Hafter i) as Ha.
        destruct (lookup_lt_is_Some_2 keys i) as [k' Hk']; [lia|].
        specialize (Ha k' ltac:(lia) Hk').
        pose proof (findIndex_before keys key' i k' ltac:(lia) Hk'). lia. }
  split; [|split; [|split]].
  - simpl. split; [|split; [|split; [|split; [|split]]]].
    + unfold children', keys'. rewrite length_insert, !length_splice. lia.
    + unfold keys'. rewrite length_splice. lia.
    + by apply sorted_splice.
    + intros j k. unfold keys'. rewrite lookup_splice by done.
      repeat case_decide; intros Hk; simplify_eq; [by eapply Hb| |by eapply Hb].
      split.
      * unfold child_lo in Hlom. destruct i as [|i']; [done|].
        destruct (keys !! i') as [k'|] eqn:Hk'; [|done].
        destruct (Hb i' k' Hk') as [Hlo' _]. destruct lo; simpl in *; [lia|done].
      * unfold child_hi in Hmhi.
        destruct (keys !! i) as [k'|] eqn:Hk'; [|done].
        destruct (Hb i k' Hk') as [_ Hhi']. destruct hi; simpl in *; [lia|done].
    + intros j d. rewrite Hch'. unfold keys'.
      rewrite child_lo_splice, child_hi_splice by done.
      repeat case_decide; try lia; intros Hd; simplify_eq.
      * by apply Hch.
      * done.
      * replace (S i - 1) with i by lia. done.
      * apply Hch in Hd. destruct j as [|j]; [lia|]. simpl in *.
        by rewrite Nat.sub_0_r in *.
    + rewrite Hcov. unfold children'. rewrite (split_children _ _ c) by done.
      rewrite <- (take_drop_middle children i c) at 1 by done.
      rewrite !map_app, !union_list_app_L. simpl.
      rewrite ?union_list_cons. rewrite <- Hdocs. set_solver.
  - simpl. unfold children'. rewrite (split_children _ _ c) by done.
    rewrite <- (take_drop_middle children i c) at 3 by done.
    rewrite !map_app, !union_list_app_L. simpl.
    rewrite ?union_list_cons. rewrite <- Hdocs. set_solver.
  - intros key'. rewrite !get_node. unfold findChildIndex.
    rewrite Hfind, Hch'.
    repeat case_decide; try lia; try done.
    + replace (S (findIndex keys key') - 1) with (findIndex keys key') by lia. done.
    + replace (findIndex keys key') with i by lia. rewrite Hc, Hget.
      by rewrite decide_True.
    + replace (findIndex keys key') with i by lia. rewrite Hc, Hget.
      by rewrite decide_False.
  - rewrite Hfind, Hch'. fold i.
    repeat case_decide; try lia; eauto.
Qed.

(** ** Insertion *)

Lemma elem_insert_node fuel keys children covering key value :
  elem_insert (S fuel) (BTreeNode keys children covering) key value =
  match children !! findIndex keys key with
  | None => TypeError
  | Some c =>
      if full c then
        '(medianKey, left_, right_) ← split c;
        elem_insert fuel
          (BTreeNode (splice (findIndex keys key) medianKey keys)
             (<[findIndex keys key := left_]>
                (splice (findIndex keys key + 1) right_ children))
             covering)
          key value
      else
        c' ← elem_insert fuel c key value;
        Ok (BTreeNode keys (<[findIndex keys key := c']> children)
              (add covering value))
  end.
Proof. reflexivity. Qed.

(** A larger budget of calls does not change the result of an insertion. *)
Lemma elem_insert_fuel_mono fuel fuel' e key value e' :
  elem_insert fuel e key value = Ok e' → fuel ≤ fuel' →
  elem_insert fuel' e key value = Ok e'.
Proof.
  revert fuel' e e'. induction fuel as [|fuel IH]; intros fuel' e e'; [done|].
  destruct fuel' as [|fuel']; [lia|]. intros Hins Hle.
  destruct e as [keys values|keys children covering]; [done|].
  rewrite elem_insert_node in *.
  destruct (children !! findIndex keys key) as [c|]; [|done].
  destruct (full c).
  - destruct (split c) as [[[m l] r]| | |]; try done. simpl in *.
    apply IH; [done|lia].
  - destruct (elem_insert fuel c key value) as [c'| | |] eqn:Hc; try done.
    rewrite (IH fuel' c c') by (done || lia). done.
Qed.

Section insert_level.
Variable h : nat.
Hypothesis below : ∀ fuel lo hi e key value,
  wf h lo hi e → full e = false → lo_le lo key → lt_hi key hi →
  2 * h + 1 ≤ fuel →
  ∃ e', elem_insert fuel e key value = Ok e' ∧ insert_post h lo hi key value e e'.

(** Descending into a child that is not full. *)
Lemma elem_insert_descend fuel lo hi keys children covering key value c :
  wf (S h) lo hi (BTreeNode keys children covering) →
  lo_le lo key → lt_hi key hi →
  children !! findIndex keys key = Some c → full c = false →
  2 * h + 2 ≤ fuel →
  ∃ e', elem_insert fuel (BTreeNode keys children covering) key value = Ok e' ∧
        insert_post (S h) lo hi key value (BTreeNode keys children covering) e'.
Proof using below.
  intros Hwf Hlo Hhi Hc Hfull Hfuel.
  destruct fuel as [|fuel]; [lia|].
  destruct (wf_node_child _ _ _ _ _ _ key Hwf Hlo Hhi)
    as (c0 & Hc0 & Hwfc & Hloc & Hhic).
  rewrite Hc in Hc0. injection Hc0 as <-.
  destruct (below fuel _ _ c key value Hwfc Hfull Hloc Hhic ltac:(lia))
    as (c' & Hins & Hpost).
  rewrite elem_insert_node, Hc, Hfull, Hins. simpl.
  eexists. split; [done|]. by eapply node_descend.
Qed.

Lemma elem_insert_level fuel lo hi e key value :
  wf (S h) lo hi e → full e = false → lo_le lo key → lt_hi key hi →
  2 * S h + 1 ≤ fuel →
  ∃ e', elem_insert fuel e key value = Ok e' ∧
        insert_post (S h) lo hi key value e e'.
Proof using below.
  intros Hwf Hfull Hlo Hhi Hfuel.
  destruct e as [keys values|keys children covering]; [done|].
  destruct (wf_node_child _ _ _ _ _ _ key Hwf Hlo Hhi) as (c & Hc & _).
  destruct (full c) eqn:Hfc.
  - destruct fuel as [|fuel]; [lia|].
    assert (Hroom : length keys < MAX_NODE_SIZE).
    { simpl in Hfull. apply bool_decide_eq_false in Hfull. lia. }
    destruct (node_split_child _ _ _ _ _ _ key c Hwf Hroom Hc Hfc)
      as (m & l & r & Hsplit & Hwf1 & Hdocs1 & Hget1 & c1 & Hc1 & Hfc1).
    rewrite elem_insert_node, Hc, Hfc, Hsplit. simpl.
    destruct (elem_insert_descend fuel lo hi _ _ covering key value c1 Hwf1 Hlo Hhi
                Hc1 Hfc1 ltac:(lia)) as (e' & Hins & Hwf' & Hdocs' & Hget').
    exists e'. split; [done|]. split; [done|]. split.
    + by rewrite Hdocs', Hdocs1.
    + intros key' o o' Ho Ho'. apply Hget'; by rewrite Hget1.
  - apply elem_insert_descend with c; (done || lia).
Qed.
End insert_level.

(** An insertion into a well-formed element that is not full returns, within
    two calls per level, a well-formed element that holds the new pair. *)
Lemma elem_insert_ok h : ∀ fuel lo hi e key value,
  wf h lo hi e → full e = false → lo_le lo key → lt_hi key hi →
  2 * h + 1 ≤ fuel →
  ∃ e', elem_insert fuel e key value = Ok e' ∧ insert_post h lo hi key value e e'.
Proof.
  induction h as [|h IH].
  - intros fuel lo hi [keys values|] key value Hwf Hfull Hlo Hhi Hfuel; [|done].
    destruct fuel as [|fuel]; [lia|].
    assert (Hroom : length keys < MAX_LEAF_SIZE).
    { simpl in Hfull. apply bool_decide_eq_false in Hfull. lia. }
    destruct (leaf_insert_spec _ _ _ _ key value Hwf Hroom Hlo Hhi)
      as (keys' & values' & Heq & Hwf' & Hdocs & Hget).
    simpl. rewrite Heq. eexists. split; [done|]. split; [done|]. split.
    + destruct Hwf as (Hlen & _), Hwf' as (Hlen' & _).
      by rewrite !docs_leaf.
    + intros key' o o' [= <-] [= <-]. simpl. by rewrite Hget.
  - intros. by apply elem_insert_level.
Qed.

(** ** The tree *)

Lemma BTree_insert_fuel_S fuel t key value :
  BTree_insert_fuel (S fuel) t key value =
  if full (root t) then
    '(medianKey, left_, right_) ← split (root t);
    r ← new_BTreeNode [medianKey] [left_; right_];
    BTree_insert_fuel fuel {| root := r |} key value
  else
    r ← elem_insert fuel (root t) key value;
    Ok {| root := r |}.
Proof. reflexivity. Qed.

(** A larger budget of calls does not change the result of [BTree.insert]. *)
Lemma BTree_insert_fuel_mono fuel fuel' t key value t' :
  BTree_insert_fuel fuel t key value = Ok t' → fuel ≤ fuel' →
  BTree_insert_fuel fuel' t key value = Ok t'.
Proof.
  revert fuel' t t'. induction fuel as [|fuel IH]; intros fuel' t t'; [done|].
  destruct fuel' as [|fuel']; [lia|]. intros Hins Hle.
  rewrite BTree_insert_fuel_S in *. destruct (full (root t)).
  - destruct (split (root t)) as [[[m l] r]| | |]; try done. simpl in *.
    destruct (new_BTreeNode [m] [l; r]) as [e| | |]; try done. simpl in *.
    apply IH; [done|lia].
  - destruct (elem_insert fuel (root t) key value) as [e| | |] eqn:He; try done.
    rewrite (elem_insert_fuel_mono fuel fuel' _ _ _ e) by (done || lia). done.
Qed.

(** Wrapping a full root: the new root is well formed, one level higher, not
    full, and answers every [get] as the old one. *)
Lemma root_split_wf h e :
  wf h None None e → full e = true →
  ∃ m l r e',
    split e = Ok (m, l, r) ∧
    new_BTreeNode [m] [l; r] = Ok e' ∧
    wf (S h) None None e' ∧ full e' = false ∧
    docs e' = docs e ∧
    ∀ key, get e' key = get e key.
Proof.
  intros Hwf Hfull.
  destruct (split_wf _ _ _ _ Hwf Hfull)
    as (m & l & r & Hsplit & _ & _ & Hwl & Hwr & _ & _ & Hdocs & Hget).
  exists m, l, r. eexists. split; [done|]. split.
  { apply new_BTreeNode_wf. intros c Hc.
    apply elem_of_cons in Hc as [->|Hc]; [by eauto|].
    apply list_elem_of_singleton in Hc as ->. by eauto. }
  split; [|split; [|split]].
  - simpl. split; [done|]. split; [unfold MAX_NODE_SIZE; lia|]. split.
    { intros [|i] [|j] a b Ha Hb Hlt; simplify_eq/=; lia. }
    split.
    { intros [|i] k Hk; simplify_eq/=. done. }
    split; [|done].
    intros [|[|j]] c Hc; simplify_eq/=; done.
  - done.
  - simpl. rewrite <- Hdocs. set_solver.
  - intros key. rewrite get_node, Hget. unfold findChildIndex. simpl.
    destruct (Z.geb_spec key m); case_decide; (done || lia).
Qed.

Lemma BTree_insert_ok t key value :
  wf_tree t →
  ∃ t', BTree_insert t key value = Ok t' ∧ wf_tree t' ∧
        docs (root t') = add (docs (root t)) value ∧
        ∀ key' o o', BTree_get t key = Ok o → BTree_get t key' = Ok o' →
                     BTree_get t' key' = Ok (updated key value key' o o').
Proof.
  intros [h Hwf]. unfold BTree_insert, BTree_get.
  rewrite (wf_height _ _ _ _ Hwf).
  replace (2 * h + 5) with (S (S (2 * h + 3))) by lia.
  remember (2 * h + 3) as fuel eqn:Hfuel.
  rewrite BTree_insert_fuel_S. destruct (full (root t)) eqn:Hfull.
  - destruct (root_split_wf _ _ Hwf Hfull)
      as (m & l & r & e1 & Hsplit & Hnew & Hwf1 & Hfull1 & Hdocs1 & Hget1).
    rewrite Hsplit. simpl. rewrite Hnew. simpl. rewrite Hfull1.
    destruct (elem_insert_ok (S h) fuel None None e1 key value
                Hwf1 Hfull1 I I ltac:(lia)) as (e' & -> & Hwf' & Hdocs' & Hget').
    simpl. eexists. split; [done|]. split; [by exists (S h)|]. split.
    + simpl. by rewrite Hdocs', Hdocs1.
    + intros key' o o' Ho Ho'. simpl. apply Hget'; by rewrite Hget1.
  - destruct (elem_insert_ok h (S fuel) None None (root t) key value
                Hwf Hfull I I ltac:(lia)) as (e' & -> & Hwf' & Hdocs' & Hget').
    simpl. eexists. split; [done|]. split; [by exists h|]. done.
Qed.

Lemma new_BTree_wf : wf_tree new_BTree.
Proof.
  exists 0. simpl. split; [done|]. split; [unfold MAX_LEAF_SIZE; lia|].
  split; [intros i j a b Ha; by rewrite lookup_nil in Ha|].
  intros i k Hk. by rewrite lookup_nil in Hk.
Qed.

(** ** Sequences of insertions, against the reference structure *)

Lemma reference_insert_lookup m key value key' :
  reference_insert m key value !! key' =
  updated key value key' (m !! key) (m !! key').
Proof.
  unfold reference_insert, updated. rewrite lookup_insert.
  by repeat case_decide; simplify_eq.
Qed.

Lemma insert_all_ok ops : ∀ t m,
  wf_tree t → (∀ key, BTree_get t key = Ok (m !! key)) →
  ∃ t', insert_all t ops = Ok t' ∧ wf_tree t' ∧
        ∀ key, BTree_get t' key =
               Ok (fold_left (λ m op, reference_insert m op.1 op.2) ops m !! key).
Proof.
  induction ops as [|[key value] ops IH]; intros t m Hwf Hget.
  - exists t. done.
  - destruct (BTree_insert_ok t key value Hwf) as (t1 & Hins & Hwf1 & _ & Hget1).
    simpl. rewrite Hins. simpl.
    apply IH; [done|]. intros key'.
    rewrite reference_insert_lookup. by apply Hget1.
Qed.

(** Every sequence of insertions completes, and the tree it builds is well
    formed and answers [get] as the reference structure does. *)
Lemma build_ok ops :
  ∃ t, build ops = Ok t ∧ wf_tree t ∧
       ∀ key, BTree_get t key = Ok (reference ops !! key).
Proof.
  apply insert_all_ok; [apply new_BTree_wf|]. intros key.
  by rewrite lookup_empty.
Qed.

Lemma reference_snoc ops key value :
  reference (ops ++ [(key, value)]) = reference_insert (reference ops) key value.
Proof. unfold reference. by rewrite fold_left_app. Qed.

(** The reference structure holds, under each key, the ids inserted under it. *)
Lemma reference_spec ops key :
  match reference ops !! key with
  | Some s => ∀ d, d ∈ s ↔ (key, d) ∈ ops
  | None => ∀ d, (key, d) ∉ ops
  end.
Proof.
  induction ops as [|[key0 value0] ops IH] using rev_ind.
  - unfold reference. simpl. rewrite lookup_empty. intros d. apply not_elem_of_nil.
  - rewrite reference_snoc, reference_insert_lookup. unfold updated, add.
    case_decide as Hk.
    + subst key0. intros d. rewrite elem_of_app, list_elem_of_singleton.
      destruct (reference ops !! key) as [s|]; simpl.
      * rewrite elem_of_union, elem_of_singleton, IH. naive_solver.
      * rewrite elem_of_union, elem_of_singleton. specialize (IH d).
        split; [intros [->|?]; [by right|set_solver]|naive_solver].
    + destruct (reference ops !! key) as [s|].
      * intros d. rewrite elem_of_app, list_elem_of_singleton, IH. naive_solver.
      * intros d. rewrite elem_of_app, list_elem_of_singleton.
        specialize (IH d). naive_solver.
Qed.

Lemma reference_None ops key :
  (∀ d, (key, d) ∉ ops) → reference ops !! key = None.
Proof.
  induction ops as [|[key0 value0] ops IH] using rev_ind; intros Hnot.
  - unfold reference. simpl. apply lookup_empty.
  - rewrite reference_snoc, reference_insert_lookup. unfold updated.
    rewrite decide_False.
    + apply IH. intros d Hd. apply (Hnot d). apply elem_of_app. by left.
    + intros ->. apply (Hnot value0). apply elem_of_app. right.
      by apply list_elem_of_singleton.
Qed.

(** ** Where a key can be found *)

Lemma child_bounds h lo hi keys children covering j k :
  wf (S h) lo hi (BTreeNode keys children covering) →
  j < length children →
  lo_le (child_lo lo keys j) k → lt_hi k (child_hi hi keys j) →
  lo_le lo k ∧ lt_hi k hi.
Proof.
  intros (Hlen & _ & _ & Hb & _) Hj Hlo Hhi. split.
  - unfold child_lo in Hlo. destruct j as [|j]; [done|].
    destruct (keys !! j) as [k'|] eqn:Hk'; [|done].
    destruct (Hb j k' Hk') as [Hlo' _]. destruct lo; simpl in *; [lia|done].
  - unfold child_hi in Hhi. destruct (keys !! j) as [k'|] eqn:Hk'; [|done].
    destruct (Hb j k' Hk') as [_ Hhi']. destruct hi; simpl in *; [lia|done].
Qed.

Lemma get_in_bounds h : ∀ lo hi e key s,
  wf h lo hi e → get e key = Ok (Some s) → lo_le lo key ∧ lt_hi key hi.
Proof.
  induction h as [|h IH]; intros lo hi [keys values|keys children covering] key s;
    try done.
  - intros (_ & _ & _ & Hb) [= Hget].
    apply leaf_get_Some in Hget as (i & _ & Hi & _).
    by destruct (Hb i key Hi).
  - intros Hwf. rewrite get_node.
    destruct (children !! findChildIndex keys key) as [c|] eqn:Hc; [|done].
    intros Hget. pose proof Hwf as (_ & _ & _ & _ & Hch & _).
    destruct (IH _ _ _ _ _ (Hch _ _ Hc) Hget).
    eapply child_bounds; [done| |done..]. by eapply lookup_lt_Some.
Qed.

(** A key within the bounds of child [j] is looked up in child [j]. *)
Lemma node_route h lo hi keys children covering j k :
  wf (S h) lo hi (BTreeNode keys children covering) →
  j < length children →
  lo_le (child_lo lo keys j) k → lt_hi k (child_hi hi keys j) →
  findIndex keys k = j.
Proof.
  intros (Hlen & _ & Hs & _) Hj Hlo Hhi.
  apply findIndex_sorted; [done|lia|..].
  - intros k' Hk'. unfold child_hi in Hhi. by rewrite Hk' in Hhi.
  - intros k' Hk' Hpos. unfold child_lo in Hlo.
    destruct j as [|j]; [lia|]. simpl in Hk'. rewrite Nat.sub_0_r in Hk'.
    by rewrite Hk' in Hlo.
Qed.

(** Every id below an element is in the posting set of one of its keys. *)
Lemma docs_get h : ∀ lo hi e d,
  wf h lo hi e → d ∈ docs e →
  ∃ k s, get e k = Ok (Some s) ∧ d ∈ s.
Proof.
  induction h as [|h IH]; intros lo hi [keys values|keys children covering] d;
    try done.
  - intros (Hlen & _ & Hs & _). rewrite docs_leaf by done.
    intros Hd. apply elem_of_union_list in Hd as (s & Hs' & Hd).
    apply list_elem_of_lookup in Hs' as [i Hi].
    destruct (lookup_lt_is_Some_2 keys i) as [k Hk].
    { apply lookup_lt_Some in Hi. lia. }
    exists k, s. split; [|done]. simpl. f_equal.
    by rewrite (leaf_get_lookup _ _ i).
  - intros Hwf Hd. simpl in Hd.
    apply elem_of_union_list in Hd as (s & Hs' & Hd).
    apply list_elem_of_fmap in Hs' as (c & -> & Hc).
    apply list_elem_of_lookup in Hc as [j Hj].
    pose proof Hwf as (_ & _ & _ & _ & Hch & _).
    destruct (IH _ _ _ _ (Hch _ _ Hj) Hd) as (k & s & Hget & Hds).
    destruct (get_in_bounds _ _ _ _ _ _ (Hch _ _ Hj) Hget) as [Hlo Hhi].
    exists k, s. split; [|done]. rewrite get_node. unfold findChildIndex.
    rewrite (node_route _ _ _ _ _ _ j k Hwf); [by rewrite Hj| |done..].
    by eapply lookup_lt_Some.
Qed.

(** ** [collectGt] at a key the tree holds *)

Lemma leaf_collectGt_present lo hi keys values accumulator key s :
  wf 0 lo hi (BTreeLeaf keys values) →
  leaf_get keys values key = Some s →
  collectGt (BTreeLeaf keys values) accumulator key = Ok accumulator.
Proof.
  intros (Hlen & _ & Hs & _) Hget.
  apply leaf_get_Some in Hget as (i & _ & Hi & _).
  simpl. destruct (length keys) as [|n] eqn:Hn.
  - apply lookup_lt_Some in Hi. lia.
  - simpl. destruct (lookup_lt_is_Some_2 keys n) as [k Hk]; [lia|].
    rewrite Hk.
    assert (key ≤ k)%Z.
    { destruct (decide (i = n)) as [->|]; [simplify_eq; lia|].
      apply lookup_lt_Some in Hi as Hlt.
      pose proof (Hs i n key k Hi Hk ltac:(lia)). lia. }
    destruct (Z.gtb_spec key k); [lia|done].
Qed.

(** The descending loop of [BTreeNode.collectGt]: it stops at the child the
    key is routed to, having added the ids of the children to its right. *)
Lemma node_collectGt_loop h lo hi keys children covering key :
  wf (S h) lo hi (BTreeNode keys children covering) →
  ∀ n accumulator, n ≤ length keys →
  ∃ b acc,
    node_collect_down (λ k, k >? key)%Z keys children n accumulator = Ok (b, acc) ∧
    b ≤ n ∧
    (∀ b' k, b = S b' → keys !! b' = Some k → (k ≤ key)%Z) ∧
    (∀ j k, b ≤ j < n → keys !! j = Some k → (key < k)%Z) ∧
    (∀ d, d ∈ acc → d ∈ accumulator ∨
            ∃ j c, b < j ≤ n ∧ children !! j = Some c ∧ d ∈ docs c).
Proof.
  intros (Hlen & _ & _ & _ & Hch & _).
  induction n as [|n IH]; intros accumulator Hn.
  - exists 0, accumulator. simpl. split; [done|]. split; [done|].
    split; [done|]. split; [intros; lia|]. by left.
  - simpl. destruct (lookup_lt_is_Some_2 keys n) as [k Hk]; [lia|].
    rewrite Hk. destruct (Z.gtb_spec k key) as [Hgt|Hle].
    + rewrite at_child_lookup.
      destruct (lookup_lt_is_Some_2 children (n + 1)) as [c Hc]; [lia|].
      rewrite Hc, (collectAll_wf _ _ _ _ _ (Hch _ _ Hc)). simpl.
      destruct (IH (accumulator ∪ docs c) ltac:(lia))
        as (b & acc & -> & Hb & Hprev & Hafter & Hacc).
      exists b, acc. split; [done|]. split; [lia|]. split; [done|]. split.
      * intros j k' Hj Hk'. destruct (decide (j = n)) as [->|].
        -- simplify_eq. lia.
        -- apply (Hafter j); [lia|done].
      * intros d Hd. destruct (Hacc d Hd) as [Hin|(j & c' & Hj & Hc' & Hdc)].
        -- apply elem_of_union in Hin as [?|?]; [by left|].
           right. exists (n + 1), c. split; [lia|done].
        -- right. exists j, c'. split; [lia|done].
    + exists (S n), accumulator. split; [done|]. split; [done|]. split.
      { intros b' k' [= <-] Hk'. simplify_eq. lia. }
      split; [intros; lia|]. by left.
Qed.

Lemma collectGt_present h : ∀ lo hi e accumulator key s,
  wf h lo hi e → get e key = Ok (Some s) →
  ∃ acc, collectGt e accumulator key = Ok acc ∧
         ∀ d, d ∈ acc → d ∈ accumulator ∨
                ∃ k s', (key < k)%Z ∧ get e k = Ok (Some s') ∧ d ∈ s'.
Proof.
  induction h as [|h IH]; intros lo hi [keys values|keys children covering]
    accumulator key s; try done.
  - intros Hwf [= Hget]. exists accumulator.
    split; [by eapply leaf_collectGt_present|]. by left.
  - intros Hwf Hget.
    destruct (node_collectGt_loop _ _ _ _ _ _ key Hwf (length keys) accumulator
                ltac:(lia)) as (b & acc1 & Hloop & Hb & Hprev & Hafter & Hacc1).
    pose proof Hwf as (Hlen & _ & Hs & _ & Hch & _).
    assert (Hfind : findIndex keys key = b).
    { apply findIndex_sorted; [done..| |].
      - intros k Hk. apply (Hafter b); [|done].
        apply lookup_lt_Some in Hk. lia.
      - intros k Hk Hpos. destruct b as [|b']; [lia|].
        apply (Hprev b'); [done|]. simpl in Hk. by rewrite Nat.sub_0_r in Hk. }
    rewrite get_node in Hget. unfold findChildIndex in Hget. rewrite Hfind in Hget.
    destruct (children !! b) as [c|] eqn:Hc; [|done].
    destruct (IH _ _ _ acc1 _ _ (Hch _ _ Hc) Hget) as (acc & Hrec & Hacc).
    exists acc. split.
    { change (collectGt (BTreeNode keys children covering) accumulator key)
        with ('(i, acc) ← node_collect_down (λ k, k >? key)%Z keys children
                             (length keys) accumulator;
              at_child (λ c, collectGt c acc key) children i).
      rewrite Hloop. simpl. by rewrite at_child_lookup, Hc. }
    intros d Hd. destruct (Hacc d Hd) as [Hin|(k & s' & Hk & Hgetk & Hds)].
    + destruct (Hacc1 d Hin) as [?|(j & c' & Hj & Hc' & Hdc)]; [by left|].
      right. destruct (docs_get _ _ _ _ _ (Hch _ _ Hc') Hdc) as (k & s' & Hgetk & Hds).
      destruct (get_in_bounds _ _ _ _ _ _ (Hch _ _ Hc') Hgetk) as [Hlo Hhi].
      exists k, s'. split; [|split; [|done]].
      * unfold child_lo in Hlo. destruct j as [|j]; [lia|].
        destruct (lookup_lt_is_Some_2 keys j) as [k' Hk'].
        { apply lookup_lt_Some in Hc'. lia. }
        rewrite Hk' in Hlo. simpl in Hlo.
        pose proof (Hafter j k' ltac:(lia) Hk'). lia.
      * rewrite get_node. unfold findChildIndex.
        rewrite (node_route _ _ _ _ _ _ j k Hwf); [by rewrite Hc'| |done..].
        by eapply lookup_lt_Some.
    + right. exists k, s'. split; [done|]. split; [|done].
      destruct (get_in_bounds _ _ _ _ _ _ (Hch _ _ Hc) Hgetk) as [Hlo Hhi].
      rewrite get_node. unfold findChildIndex.
      rewrite (node_route _ _ _ _ _ _ b k Hwf); [by rewrite Hc| |done..].
      by eapply lookup_lt_Some.
Qed.

(** ** Every element of a well-formed tree *)

Lemma subtrees_wf h : ∀ lo hi e e',
  wf h lo hi e → e' ∈ subtrees e → ∃ h' lo' hi', wf h' lo' hi' e'.
Proof.
  induction h as [|h IH]; intros lo hi [keys values|keys children covering] e';
    try done.
  - intros Hwf He'. apply list_elem_of_singleton in He' as ->. eauto.
  - intros Hwf He'. simpl in He'. apply elem_of_cons in He' as [->|He']; [eauto|].
    apply list_elem_of_In, in_concat in He' as (l & Hl & He').
    apply in_map_iff in Hl as (c & <- & Hc).
    apply list_elem_of_In, list_elem_of_lookup in Hc as [j Hj].
    destruct Hwf as (_ & _ & _ & _ & Hch & _).
    eapply IH; [by apply Hch|]. by apply list_elem_of_In.
Qed.

Lemma StronglySorted_sorted keys : StronglySorted Z.lt keys → sorted keys.
Proof.
  induction 1 as [|k ks Hss IH Hall]; intros i j a b Ha Hb Hlt.
  - by rewrite lookup_nil in Ha.
  - destruct j as [|j]; [lia|]. destruct i as [|i]; simpl in *.
    + simplify_eq. rewrite Forall_forall in Hall. apply Hall.
      by eapply list_elem_of_lookup_2.
    + apply (IH i j); [done..|lia].
Qed.

(** ** The selector *)

Lemma select_lt (b : bitmap) i : i < size b → ∃ d, select b i = Some d ∧ d ∈ b.
Proof.
  intros Hi. unfold select.
  pose proof (merge_sort_Permutation N.le (elements b)) as Hperm.
  destruct (lookup_lt_is_Some_2 (merge_sort N.le (elements b)) i) as [d Hd].
  { by rewrite Hperm. }
  exists d. split; [done|]. apply elem_of_elements. rewrite <- Hperm.
  by eapply list_elem_of_lookup_2.
Qed.

Lemma random_index_lt draw cardinality :
  0 < cardinality → random_index draw cardinality < cardinality.
Proof.
  intros Hc. unfold random_index. destruct cardinality as [|n]; [lia|].
  apply Nat.mod_upper_bound. lia.
Qed.

Lemma bitmap_size_pos (C : bitmap) : C ≠ ∅ → 0 < size C.
Proof.
  intros Hne. destruct (size C) eqn:Hs; [|lia].
  destruct Hne. apply leibniz_equiv. by apply size_empty_iff.
Qed.

(** [gt] at the sort value of a document indexed under that value only
    returns, and does not return that document. *)
Lemma gt_excludes_pivot ops t pivot v :
  build ops = Ok t →
  (v, pivot) ∈ ops → (∀ k, (k, pivot) ∈ ops → k = v) →
  ∃ g, BTree_gt t v = Ok g ∧ pivot ∉ g.
Proof.
  intros Hbuild Hin Honly.
  destruct (build_ok ops) as (t0 & Hbuild0 & [h Hwf] & Hget).
  rewrite Hbuild in Hbuild0. injection Hbuild0 as <-.
  pose proof (reference_spec ops v) as Href.
  destruct (reference ops !! v) as [s|] eqn:Hs; [|by destruct (Href pivot)].
  pose proof (Hget v) as Hgetv. rewrite Hs in Hgetv.
  destruct (collectGt_present h _ _ _ ∅ _ _ Hwf Hgetv) as (g & Hg & Hsub).
  exists g. split; [done|]. intros Hp.
  destruct (Hsub pivot Hp) as [Hempty|(k & s' & Hk & Hgetk & Hps)]; [set_solver|].
  unfold BTree_get in Hget. rewrite Hget in Hgetk. injection Hgetk as Hrefk.
  pose proof (reference_spec ops k) as Hrefk'. rewrite Hrefk in Hrefk'.
  apply Hrefk' in Hps. apply Honly in Hps. lia.
Qed.

Lemma quickSelect_fuel ops t vals :
  build ops = Ok t →
  ∀ fuel rand (C : bitmap),
    size C ≤ fuel → C ≠ ∅ →
    (∀ d, d ∈ C → ∃ v, vals !! d = Some v ∧ (v, d) ∈ ops ∧
                       ∀ k, (k, d) ∈ ops → k = v) →
    ∃ d, quickSelect fuel rand C (size C) t vals = Ok d.
Proof.
  intros Hbuild. induction fuel as [|fuel IH]; intros rand C Hsize Hne Hidx.
  - pose proof (bitmap_size_pos C Hne). lia.
  - pose proof (bitmap_size_pos C Hne) as Hpos. simpl.
    destruct (select_lt C (random_index (rand 0) (size C)))
      as (pivot & -> & Hpivot); [by apply random_index_lt|].
    destruct (Hidx pivot Hpivot) as (v & -> & Hin & Honly).
    destruct (gt_excludes_pivot ops t pivot v Hbuild Hin Honly) as (g & -> & Hg).
    simpl. case_bool_decide as Hzero; [eauto|].
    assert (Hlt : size (and C g) < size C).
    { apply subset_size. unfold and. set_solver. }
    apply IH; [lia| |].
    + intros Hempty. apply Hzero. rewrite Hempty. apply size_empty.
    + intros d Hd. apply Hidx. unfold and in Hd. set_solver.
Qed.

Lemma subtrees_self e : e ∈ subtrees e.
Proof. destruct e; apply list_elem_of_here. Qed.

(** * The claims *)

(** ** Range collection *)

(** C1: the range operators on the tree holding document 100 under key 1.
    Key 1 is greater than 0, yet [gt 0] and [gte 0] are empty; key 1 is less
    than 2, yet [lt 2] and [lte 2] are empty, and [gt 2] holds document 100.
    A leaf compares the bound with its keys in the direction opposite to the
    one the inner node uses. *)
Example range_scan_single_key :
  ∃ t, build [(1%Z, 100%N)] = Ok t ∧
       BTree_gt t 0 = Ok ∅ ∧ BTree_gte t 0 = Ok ∅ ∧
       BTree_lt t 2 = Ok ∅ ∧ BTree_lte t 2 = Ok ∅ ∧
       BTree_gt t 2 = Ok {[100%N]}.
Proof.
  eexists. split; [vm_compute; reflexivity|].
  repeat split; vm_compute; reflexivity.
Qed.


(** ** Invariants of the trees built by insertion *)

(** C3: every sequence of insertions completes, and in the tree it builds the
    covering set of every inner node is the union of the posting sets of the
    keys stored below that node. *)
Theorem covering_invariant ops :
  ∃ t, build ops = Ok t ∧
       ∀ keys children covering,
         BTreeNode keys children covering ∈ subtrees (root t) →
         covering = docs (BTreeNode keys children covering).
Proof.
  destruct (build_ok ops) as (t & Hbuild & [h Hwf] & _).
  exists t. split; [done|]. intros keys children covering Hin.
  destruct (subtrees_wf _ _ _ _ _ Hwf Hin) as ([|h'] & lo' & hi' & Hwf'); [done|].
  by destruct Hwf' as (_ & _ & _ & _ & _ & ->).
Qed.

Lemma covering_invariant_witness :
  ∃ t, build forty = Ok t ∧
       ∀ keys children covering,
         root t = BTreeNode keys children covering →
         covering = docs (root t).
Proof.
  destruct (covering_invariant forty) as (t & Hbuild & Hcov).
  exists t. split; [exact Hbuild|]. intros keys children covering Hroot.
  rewrite Hroot. apply Hcov. rewrite <- Hroot. apply subtrees_self.
Defined.


(** C7: every sequence of insertions completes, and in the tree it builds the
    keys of every leaf are strictly increasing. *)
Theorem leaf_keys_sorted ops :
  ∃ t, build ops = Ok t ∧
       ∀ keys values,
         BTreeLeaf keys values ∈ subtrees (root t) →
         StronglySorted Z.lt keys.
Proof.
  destruct (build_ok ops) as (t & Hbuild & [h Hwf] & _).
  exists t. split; [done|]. intros keys values Hin.
  destruct (subtrees_wf _ _ _ _ _ Hwf Hin) as ([|h'] & lo' & hi' & Hwf'); [|done].
  destruct Hwf' as (_ & _ & Hs & _). by apply sorted_StronglySorted.
Qed.

Lemma leaf_keys_sorted_witness :
  ∃ t, build scenario = Ok t ∧
       ∀ keys values, root t = BTreeLeaf keys values → StronglySorted Z.lt keys.
Proof.
  destruct (leaf_keys_sorted scenario) as (t & Hbuild & Hsorted).
  exists t. split; [exact Hbuild|]. intros keys values Hroot.
  apply (Hsorted keys values). rewrite <- Hroot. apply subtrees_self.
Defined.


(** C8: every sequence of insertions completes, and in the tree it builds
    every leaf holds at most [MAX_LEAF_SIZE] keys and every inner node at most
    [MAX_NODE_SIZE] separator keys. *)
Theorem node_capacity ops :
  ∃ t, build ops = Ok t ∧
       ∀ e, e ∈ subtrees (root t) →
            match e with
            | BTreeLeaf keys _ => length keys ≤ MAX_LEAF_SIZE
            | BTreeNode keys _ _ => length keys ≤ MAX_NODE_SIZE
            end.
Proof.
  destruct (build_ok ops) as (t & Hbuild & [h Hwf] & _).
  exists t. split; [done|]. intros e Hin.
  destruct (subtrees_wf _ _ _ _ _ Hwf Hin) as (h' & lo' & hi' & Hwf').
  destruct h', e; try done.
  - by destruct Hwf' as (_ & ? & _).
  - by destruct Hwf' as (_ & ? & _).
Qed.

Lemma node_capacity_witness :
  ∃ t, build forty = Ok t ∧
       match root t with
       | BTreeLeaf keys _ => length keys ≤ MAX_LEAF_SIZE
       | BTreeNode keys _ _ => length keys ≤ MAX_NODE_SIZE
       end.
Proof.
  destruct (node_capacity forty) as (t & Hbuild & Hcap).
  exists t. split; [exact Hbuild|]. apply Hcap, subtrees_self.
Defined.


(** ** Lookup *)

(** C4: every sequence of insertions completes; in the tree it builds, [get]
    at the key of an inserted pair returns a posting set that contains the
    pair's document, and [get] at a key that was never inserted returns
    [undefined] (no error). *)
Theorem get_round_trip ops :
  ∃ t, build ops = Ok t ∧
       (∀ key docId, (key, docId) ∈ ops →
                     ∃ s, BTree_get t key = Ok (Some s) ∧ docId ∈ s) ∧
       (∀ key, (∀ docId, (key, docId) ∉ ops) → BTree_get t key = Ok None).
Proof.
  destruct (build_ok ops) as (t & Hbuild & _ & Hget).
  exists t. split; [done|]. split.
  - intros key docId Hin. rewrite Hget.
    pose proof (reference_spec ops key) as Href.
    destruct (reference ops !! key) as [s|]; [|by destruct (Href docId)].
    exists s. split; [done|]. by apply Href.
  - intros key Hnot. rewrite Hget. by rewrite reference_None.
Qed.

Lemma get_round_trip_witness :
  ∃ t, build scenario = Ok t ∧
       (∃ s, BTree_get t 8 = Ok (Some s) ∧ 102%N ∈ s) ∧
       BTree_get t 4 = Ok None.
Proof.
  destruct (get_round_trip scenario) as (t & Hbuild & Hin & Hout).
  exists t. split; [exact Hbuild|]. split.
  - apply Hin. unfold scenario. rewrite !elem_of_cons. tauto.
  - apply Hout. intros docId. unfold scenario.
    rewrite !elem_of_cons, elem_of_nil. intros H.
    repeat (destruct H as [H|H]; [discriminate H|]). exact H.
Defined.


(** C10: inserting again a pair that was already inserted completes, and
    [get] answers at every key as it did before. *)
Theorem insert_again_same_get ops key docId :
  (key, docId) ∈ ops →
  ∃ t t', build ops = Ok t ∧ BTree_insert t key docId = Ok t' ∧
          ∀ k, BTree_get t' k = BTree_get t k.
Proof.
  intros Hin.
  destruct (build_ok ops) as (t & Hbuild & Hwf & Hget).
  destruct (BTree_insert_ok t key docId Hwf) as (t' & Hins & _ & _ & Hget').
  exists t, t'. split; [done|]. split; [done|]. intros k.
  rewrite (Hget' k _ _ (Hget key) (Hget k)), Hget. f_equal.
  unfold updated. case_decide as Hk; [subst k|done].
  pose proof (reference_spec ops key) as Href.
  destruct (reference ops !! key) as [s|]; [|by destruct (Href docId)].
  simpl. f_equal. apply Href in Hin. unfold add. set_solver.
Qed.

Lemma insert_again_same_get_witness :
  ∃ t t', build scenario = Ok t ∧ BTree_insert t 5 100 = Ok t' ∧
          ∀ k, BTree_get t' k = BTree_get t k.
Proof.
  apply (insert_again_same_get scenario 5 100).
  unfold scenario. apply list_elem_of_here.
Defined.

(** ** Splitting a leaf *)

(** C6, as the code has it: on a full leaf with strictly increasing keys
    and one posting set per key, [split] promotes the key at index
    [floor(size / 2)]; the left half takes the keys and the posting sets
    before that index, so the promoted key is not among its keys and [get]
    does not find it there; the right half takes the keys and the posting sets
    from that index on, so the promoted key is its first key, the posting set
    of the promoted key is its first posting set, and [get] finds the promoted
    key there with that posting set. *)
Theorem leaf_split_median keys values :
  length keys = MAX_LEAF_SIZE → length values = length keys →
  StronglySorted Z.lt keys →
  ∃ m s l r,
    split (BTreeLeaf keys values) = Ok (m, l, r) ∧
    keys !! (length keys / 2) = Some m ∧
    values !! (length keys / 2) = Some s ∧
    keys_of l = take (length keys / 2) keys ∧
    values_of l = take (length keys / 2) values ∧
    keys_of r = drop (length keys / 2) keys ∧
    values_of r = drop (length keys / 2) values ∧
    (m ∉ keys_of l) ∧ get l m = Ok None ∧
    head (keys_of r) = Some m ∧ head (values_of r) = Some s ∧
    get r m = Ok (Some s).
Proof.
  intros Hlen Hvalues Hss. apply StronglySorted_sorted in Hss.
  unfold MAX_LEAF_SIZE in Hlen.
  destruct (lookup_lt_is_Some_2 keys 16) as [m Hm]; [lia|].
  destruct (lookup_lt_is_Some_2 values 16) as [s Hs]; [lia|].
  unfold split. rewrite Hlen. change (32 / 2) with 16. rewrite Hm.
  assert (Hnot : m ∉ take 16 keys).
  { intros Hin. apply elem_of_take in Hin as (i & Hi & Hlt).
    pose proof (Hss i 16 m m Hi Hm Hlt). lia. }
  assert (Hfirst : drop 16 keys !! 0 = Some m).
  { by rewrite lookup_drop, Nat.add_0_r. }
  assert (Hfirst' : drop 16 values !! 0 = Some s).
  { by rewrite lookup_drop, Nat.add_0_r. }
  exists m, s. eexists _, _. split; [done|]. split; [done|]. split; [done|].
  cbn [keys_of values_of get].
  do 4 (split; [done|]). split; [done|].
  split; [by rewrite leaf_get_None|].
  split; [by rewrite head_lookup|]. split; [by rewrite head_lookup|].
  f_equal. rewrite (leaf_get_lookup _ _ 0); [done| |done].
  by apply sorted_drop.
Qed.

Lemma leaf_split_median_witness :
  ∃ m s l r,
    split full_leaf_example = Ok (m, l, r) ∧
    keys_of full_leaf_example !! (length (keys_of full_leaf_example) / 2)
      = Some m ∧
    values_of full_leaf_example !! (length (keys_of full_leaf_example) / 2)
      = Some s ∧
    keys_of l = take (length (keys_of full_leaf_example) / 2)
                  (keys_of full_leaf_example) ∧
    values_of l = take (length (keys_of full_leaf_example) / 2)
                    (values_of full_leaf_example) ∧
    keys_of r = drop (length (keys_of full_leaf_example) / 2)
                  (keys_of full_leaf_example) ∧
    values_of r = drop (length (keys_of full_leaf_example) / 2)
                    (values_of full_leaf_example) ∧
    (m ∉ keys_of l) ∧ get l m = Ok None ∧
    head (keys_of r) = Some m ∧ head (values_of r) = Some s ∧
    get r m = Ok (Some s).
Proof.
  apply (leaf_split_median (map Z.of_nat (seq 0 32))
           (map (λ n, {[N.of_nat n]}) (seq 0 32))).
  - reflexivity.
  - reflexivity.
  - simpl. repeat (constructor; [|repeat (constructor; [reflexivity|])]);
      constructor.
Defined.

(** C6, as the claim states it, fails on the full leaf with keys 0..31: the
    promoted key 16 is among the keys of the right half. *)
Lemma leaf_split_median_kept :
  ¬ (∀ m l r, split full_leaf_example = Ok (m, l, r) →
              (m ∉ keys_of l) ∧ (m ∉ keys_of r)).
Proof.
  intros Hclaim.
  edestruct Hclaim as [_ Hright]; [vm_compute; reflexivity|].
  apply Hright. simpl. apply list_elem_of_here.
Qed.

(** ** The selector *)

(** C5: the selector scenario, evaluated with the oracle that always draws
    index 0.  The first pivot is document 1, of sort value 10; [gt 10] is
    empty although documents 2 and 3 have sort value 30; the selector returns
    document 1. *)
Example quickSelect_scenario_evaluated :
  ∃ t, build selector_ops = Ok t ∧
       size selector_candidates = 4 ∧
       BTree_gt t 10 = Ok ∅ ∧
       quickSelect 4 (λ _, 0) selector_candidates 4 t selector_values = Ok 1%N ∧
       selector_values !! 1%N = Some 10%Z ∧
       selector_values !! 2%N = Some 30%Z.
Proof.
  eexists. split; [vm_compute; reflexivity|].
  repeat split; vm_compute; reflexivity.
Qed.

(** C9: on a tree built by insertions, for a non-empty candidate set whose
    members each have a sort value and are indexed under that value and under
    no other key, the selector returns within [|C|] calls, whatever the
    oracle draws; and for every member taken as the pivot, the next candidate
    set does not contain the pivot and is strictly smaller. *)
Theorem quickSelect_terminates ops vals (C : bitmap) rand :
  C ≠ ∅ →
  (∀ d, d ∈ C → ∃ v, vals !! d = Some v ∧ (v, d) ∈ ops ∧
                     ∀ k, (k, d) ∈ ops → k = v) →
  ∃ t, build ops = Ok t ∧
       (∃ d, quickSelect (size C) rand C (size C) t vals = Ok d) ∧
       (∀ pivot v, pivot ∈ C → vals !! pivot = Some v →
          ∃ g, BTree_gt t v = Ok g ∧
               (pivot ∉ and C g) ∧ size (and C g) < size C).
Proof.
  intros Hne Hidx.
  destruct (build_ok ops) as (t & Hbuild & _).
  exists t. split; [done|]. split.
  - by apply (quickSelect_fuel ops t vals Hbuild).
  - intros pivot v Hpivot Hv.
    destruct (Hidx pivot Hpivot) as (v' & Hv' & Hin & Honly).
    rewrite Hv in Hv'. injection Hv' as <-.
    destruct (gt_excludes_pivot ops t pivot v Hbuild Hin Honly) as (g & Hg & Hnot).
    exists g. split; [done|]. unfold and. split; [set_solver|].
    apply subset_size. set_solver.
Qed.

Lemma quickSelect_terminates_witness :
  ∃ t, build selector_ops = Ok t ∧
       (∃ d, quickSelect (size selector_candidates) (λ _, 0) selector_candidates
               (size selector_candidates) t selector_values = Ok d) ∧
       (∀ pivot v, pivot ∈ selector_candidates →
          selector_values !! pivot = Some v →
          ∃ g, BTree_gt t v = Ok g ∧
               (pivot ∉ and selector_candidates g) ∧
               size (and selector_candidates g) < size selector_candidates).
Proof.
  apply (quickSelect_terminates selector_ops selector_values selector_candidates
           (λ _, 0)).
  - intros Hempty. apply (f_equal size) in Hempty. vm_compute in Hempty.
    discriminate Hempty.
  - intros d Hd. unfold selector_candidates in Hd.
    rewrite !elem_of_union, !elem_of_singleton in Hd.
    unfold selector_ops.
    destruct Hd as [[[->| ->]| ->]| ->].
    + exists 10%Z. split; [reflexivity|]. rewrite !elem_of_cons. split; [tauto|].
      intros k. rewrite !elem_of_cons, elem_of_nil. intros H.
      repeat (destruct H as [H|H]; [by simplify_eq|]).
      destruct H.
    + exists 30%Z. split; [reflexivity|]. rewrite !elem_of_cons. split; [tauto|].
      intros k. rewrite !elem_of_cons, elem_of_nil. intros H.
      repeat (destruct H as [H|H]; [by simplify_eq|]).
      destruct H.
    + exists 30%Z. split; [reflexivity|]. rewrite !elem_of_cons. split; [tauto|].
      intros k. rewrite !elem_of_cons, elem_of_nil. intros H.
      repeat (destruct H as [H|H]; [by simplify_eq|]).
      destruct H.
    + exists 5%Z. split; [reflexivity|]. rewrite !elem_of_cons. split; [tauto|].
      intros k. rewrite !elem_of_cons, elem_of_nil. intros H.
      repeat (destruct H as [H|H]; [by simplify_eq|]).
      destruct H.
Defined.

(** * Further properties of the code *)

(** ** Lookup against the sequence of insertions *)

Lemma reference_Some_inhabited ops key s :
  reference ops !! key = Some s → ∃ d, (key, d) ∈ ops.
Proof.
  intros Hs. destruct (decide (key ∈ ops.*1)) as [Hin|Hnot].
  - apply list_elem_of_fmap in Hin as ([k d] & -> & Hin). by exists d.
  - rewrite reference_None in Hs; [done|]. intros d Hd. apply Hnot.
    apply list_elem_of_fmap. by exists (key, d).
Qed.

(** [BTree.get], exactly: on the tree built by a sequence of insertions,
    [get key] is [undefined] when no pair was inserted under [key], and
    otherwise the set of exactly the documents inserted under [key], which is
    not empty. *)
Theorem get_exact ops key :
  ∃ t o, build ops = Ok t ∧ BTree_get t key = Ok o ∧
         match o with
         | Some s => (∀ d, d ∈ s ↔ (key, d) ∈ ops) ∧ s ≠ ∅
         | None => ∀ d, (key, d) ∉ ops
         end.
Proof.
  destruct (build_ok ops) as (t & Hbuild & _ & Hget).
  exists t, (reference ops !! key). split; [done|]. split; [done|].
  pose proof (reference_spec ops key) as Href.
  destruct (reference ops !! key) as [s|] eqn:Hs; [|done].
  split; [done|]. destruct (reference_Some_inhabited _ _ _ Hs) as [d Hd].
  apply Href in Hd. set_solver.
Qed.

Lemma reference_Permutation ops ops' key :
  ops ≡ₚ ops' → reference ops !! key = reference ops' !! key.
Proof.
  intros Hperm.
  pose proof (reference_spec ops key) as Href.
  pose proof (reference_spec ops' key) as Href'.
  destruct (reference ops !! key) as [s|] eqn:Hs,
           (reference ops' !! key) as [s'|] eqn:Hs'; try done.
  - f_equal. apply set_eq. intros d. by rewrite Href, Href', Hperm.
  - destruct (reference_Some_inhabited _ _ _ Hs) as [d Hd].
    rewrite Hperm in Hd. by destruct (Href' d).
  - destruct (reference_Some_inhabited _ _ _ Hs') as [d Hd].
    rewrite <- Hperm in Hd. by destruct (Href d).
Qed.

(** The order of the insertions does not show in [get]: two sequences with
    the same pairs, in any order, build trees on which [get] answers alike at
    every key. *)
Theorem get_order_independent ops ops' :
  ops ≡ₚ ops' →
  ∃ t t', build ops = Ok t ∧ build ops' = Ok t' ∧
          ∀ key, BTree_get t key = BTree_get t' key.
Proof.
  intros Hperm.
  destruct (build_ok ops) as (t & Hbuild & _ & Hget).
  destruct (build_ok ops') as (t' & Hbuild' & _ & Hget').
  exists t, t'. split; [done|]. split; [done|]. intros key.
  rewrite Hget, Hget'. f_equal. by apply reference_Permutation.
Qed.

Lemma get_order_independent_witness :
  ∃ t t', build [(1%Z, 7%N); (2%Z, 8%N)] = Ok t ∧
          build [(2%Z, 8%N); (1%Z, 7%N)] = Ok t' ∧
          ∀ key, BTree_get t key = BTree_get t' key.
Proof.
  apply (get_order_independent [(1%Z, 7%N); (2%Z, 8%N)] [(2%Z, 8%N); (1%Z, 7%N)]).
  apply perm_swap.
Defined.

(** [BTree.insert] then [BTree.get]: on a tree built by insertions, one more
    insertion of [(key, docId)] completes; afterwards [get key] is what it was
    (nothing, when it was [undefined]) with [docId] added, and [get] at every
    other key is unchanged. *)
Theorem insert_then_get ops key docId :
  ∃ t t' o, build ops = Ok t ∧ BTree_insert t key docId = Ok t' ∧
            BTree_get t key = Ok o ∧
            BTree_get t' key = Ok (Some ({[docId]} ∪ default ∅ o)) ∧
            ∀ k, k ≠ key → BTree_get t' k = BTree_get t k.
Proof.
  destruct (build_ok ops) as (t & Hbuild & Hwf & Hget).
  destruct (BTree_insert_ok t key docId Hwf) as (t' & Hins & _ & _ & Hget').
  exists t, t', (reference ops !! key).
  split; [done|]. split; [done|]. split; [done|]. split.
  - rewrite (Hget' key _ _ (Hget key) (Hget key)). unfold updated, add.
    by rewrite decide_True.
  - intros k Hk. rewrite (Hget' k _ _ (Hget key) (Hget k)), Hget.
    unfold updated. by rewrite decide_False.
Qed.

Lemma insert_then_get_witness :
  ∃ t t' o, build scenario = Ok t ∧ BTree_insert t 4 300 = Ok t' ∧
            BTree_get t 4 = Ok o ∧
            BTree_get t' 4 = Ok (Some ({[300%N]} ∪ default ∅ o)) ∧
            (BTree_get t' 5 = BTree_get t 5).
Proof.
  destruct (insert_then_get scenario 4 300) as (t & t' & o & Hb & Hi & Ho & Hk & Hother).
  exists t, t', o. repeat split; try assumption.
  apply Hother. discriminate.
Defined.

(** ** The documents a tree holds *)

Lemma insert_all_docs ops : ∀ t,
  wf_tree t →
  ∃ t', insert_all t ops = Ok t' ∧ wf_tree t' ∧
        ∀ d, d ∈ docs (root t') ↔ d ∈ docs (root t) ∨ ∃ k, (k, d) ∈ ops.
Proof.
  induction ops as [|[key value] ops IH]; intros t Hwf.
  - exists t. split; [done|]. split; [done|]. intros d. split; [by left|].
    intros [?|[k Hk]]; [done|]. by apply elem_of_nil in Hk.
  - destruct (BTree_insert_ok t key value Hwf) as (t1 & Hins & Hwf1 & Hdocs1 & _).
    destruct (IH t1 Hwf1) as (t' & Hall & Hwf' & Hdocs').
    exists t'. simpl. rewrite Hins. simpl. split; [done|]. split; [done|].
    intros d. rewrite Hdocs', Hdocs1. unfold add.
    rewrite elem_of_union, elem_of_singleton. split.
    + intros [[->|?]|[k Hk]]; [right; exists key; left|by left|].
      right. exists k. by right.
    + intros [?|[k Hk]]; [by left; right|].
      apply elem_of_cons in Hk as [[= -> ->]|Hk]; [by left; left|].
      right. by exists k.
Qed.

Lemma build_docs ops :
  ∃ t, build ops = Ok t ∧ wf_tree t ∧
       ∀ d, d ∈ docs (root t) ↔ ∃ k, (k, d) ∈ ops.
Proof.
  destruct (insert_all_docs ops new_BTree new_BTree_wf) as (t & Hb & Hwf & Hdocs).
  exists t. split; [done|]. split; [done|]. intros d. rewrite Hdocs.
  change (docs (root new_BTree)) with (∅ : bitmap). set_solver.
Qed.

(** [collectAll] on the root of a built tree returns, added to the
    accumulator, exactly the documents that were inserted: none is lost in a
    split and none is invented. *)
Theorem collectAll_root ops accumulator :
  ∃ t g, build ops = Ok t ∧ collectAll (root t) accumulator = Ok g ∧
         ∀ d, d ∈ g ↔ d ∈ accumulator ∨ ∃ k, (k, d) ∈ ops.
Proof.
  destruct (build_docs ops) as (t & Hbuild & [h Hwf] & Hdocs).
  exists t, (accumulator ∪ docs (root t)). split; [done|].
  split; [by eapply collectAll_wf|].
  intros d. by rewrite elem_of_union, Hdocs.
Qed.

(** ** The shape of a built tree *)

(** In a built tree every inner node has exactly one more child than it has
    separator keys, and every leaf has exactly one posting set per key. *)
Theorem node_arity ops :
  ∃ t, build ops = Ok t ∧
       ∀ e, e ∈ subtrees (root t) →
            match e with
            | BTreeLeaf keys values => length values = length keys
            | BTreeNode keys children _ => length children = S (length keys)
            end.
Proof.
  destruct (build_ok ops) as (t & Hbuild & [h Hwf] & _).
  exists t. split; [done|]. intros e Hin.
  destruct (subtrees_wf _ _ _ _ _ Hwf Hin) as (h' & lo' & hi' & Hwf').
  destruct h', e; try done.
  - by destruct Hwf' as (? & _).
  - by destruct Hwf' as (? & _).
Qed.

(** A built tree is balanced: the children of an inner node all have the same
    height, so every leaf is at the same depth. *)
Theorem children_same_height ops :
  ∃ t, build ops = Ok t ∧
       ∀ keys children covering c c',
         BTreeNode keys children covering ∈ subtrees (root t) →
         c ∈ children → c' ∈ children → height c = height c'.
Proof.
  destruct (build_ok ops) as (t & Hbuild & [h Hwf] & _).
  exists t. split; [done|]. intros keys children covering c c' Hin Hc Hc'.
  destruct (subtrees_wf _ _ _ _ _ Hwf Hin) as ([|h'] & lo' & hi' & Hwf'); [done|].
  destruct Hwf' as (_ & _ & _ & _ & Hch & _).
  apply list_elem_of_lookup in Hc as [j Hj], Hc' as [j' Hj'].
  rewrite (wf_height _ _ _ _ (Hch _ _ Hj)).
  by rewrite (wf_height _ _ _ _ (Hch _ _ Hj')).
Qed.

(** In a built tree the separator keys of every inner node are strictly
    increasing. *)
Theorem separators_sorted ops :
  ∃ t, build ops = Ok t ∧
       ∀ keys children covering,
         BTreeNode keys children covering ∈ subtrees (root t) →
         StronglySorted Z.lt keys.
Proof.
  destruct (build_ok ops) as (t & Hbuild & [h Hwf] & _).
  exists t. split; [done|]. intros keys children covering Hin.
  destruct (subtrees_wf _ _ _ _ _ Hwf Hin) as ([|h'] & lo' & hi' & Hwf'); [done|].
  destruct Hwf' as (_ & _ & Hs & _). by apply sorted_StronglySorted.
Qed.

Lemma leaf_keys_bounds h : ∀ lo hi e k,
  wf h lo hi e → k ∈ leaf_keys e → lo_le lo k ∧ lt_hi k hi.
Proof.
  induction h as [|h IH]; intros lo hi [keys values|keys children covering] k;
    try done.
  - intros (_ & _ & _ & Hb) Hk. apply list_elem_of_lookup in Hk as [i Hi].
    by apply (Hb i).
  - intros Hwf Hk. simpl in Hk.
    apply list_elem_of_In, in_concat in Hk as (l & Hl & Hk).
    apply in_map_iff in Hl as (c & <- & Hc).
    apply list_elem_of_In, list_elem_of_lookup in Hc as [j Hj].
    pose proof Hwf as (_ & _ & _ & _ & Hch & _).
    destruct (IH _ _ _ k (Hch _ _ Hj)) as [Hlo Hhi]; [by apply list_elem_of_In|].
    eapply child_bounds; [done| |done..]. by eapply lookup_lt_Some.
Qed.

(** The separators bound the children: in a built tree, every key stored
    below child [j] of an inner node is less than separator [j] (when there is
    one) and at least separator [j - 1] (when there is one).  A key equal to a
    separator is on its right. *)
Theorem separators_bound_children ops :
  ∃ t, build ops = Ok t ∧
       ∀ keys children covering j c k,
         BTreeNode keys children covering ∈ subtrees (root t) →
         children !! j = Some c → k ∈ leaf_keys c →
         (∀ s, keys !! j = Some s → (k < s)%Z) ∧
         (∀ j' s, j = S j' → keys !! j' = Some s → (s ≤ k)%Z).
Proof.
  destruct (build_ok ops) as (t & Hbuild & [h Hwf] & _).
  exists t. split; [done|]. intros keys children covering j c k Hin Hc Hk.
  destruct (subtrees_wf _ _ _ _ _ Hwf Hin) as ([|h'] & lo' & hi' & Hwf'); [done|].
  destruct Hwf' as (_ & _ & _ & _ & Hch & _).
  destruct (leaf_keys_bounds _ _ _ _ _ (Hch _ _ Hc) Hk) as [Hlo Hhi]. split.
  - intros s Hs. unfold child_hi in Hhi. by rewrite Hs in Hhi.
  - intros j' s -> Hs. unfold child_lo in Hlo. by rewrite Hs in Hlo.
Qed.

(** ** Splitting *)

(** [split] on a full element of a built tree returns two halves, neither of
    them full, that together hold the documents the element held; every key
    below the left half is less than the promoted key, every key below the
    right half is at least the promoted key, and [get] on the element agrees
    at every key with [get] on the half on that key's side. *)
Theorem split_keeps_contents ops :
  ∃ t, build ops = Ok t ∧
       ∀ e, e ∈ subtrees (root t) → full e = true →
            ∃ m l r, split e = Ok (m, l, r) ∧
                     full l = false ∧ full r = false ∧
                     docs l ∪ docs r = docs e ∧
                     (∀ k, k ∈ leaf_keys l → (k < m)%Z) ∧
                     (∀ k, k ∈ leaf_keys r → (m ≤ k)%Z) ∧
                     ∀ key, get e key =
                            if decide (key < m)%Z then get l key else get r key.
Proof.
  destruct (build_ok ops) as (t & Hbuild & [h Hwf] & _).
  exists t. split; [done|]. intros e Hin Hfull.
  destruct (subtrees_wf _ _ _ _ _ Hwf Hin) as (h' & lo' & hi' & Hwf').
  destruct (split_wf _ _ _ _ Hwf' Hfull)
    as (m & l & r & Hsplit & _ & _ & Hwl & Hwr & Hfl & Hfr & Hdocs & Hget).
  exists m, l, r. do 4 (split; [done|]). split; [|split; [|done]].
  - intros k Hk. by destruct (leaf_keys_bounds _ _ _ _ _ Hwl Hk).
  - intros k Hk. by destruct (leaf_keys_bounds _ _ _ _ _ Hwr Hk).
Qed.

Lemma split_keeps_contents_witness :
  ∃ t, build thirty_two = Ok t ∧
       (full (root t) = true →
        ∃ m l r, split (root t) = Ok (m, l, r) ∧
                 full l = false ∧ full r = false ∧
                 docs l ∪ docs r = docs (root t) ∧
                 (∀ k, k ∈ leaf_keys l → (k < m)%Z) ∧
                 (∀ k, k ∈ leaf_keys r → (m ≤ k)%Z) ∧
                 ∀ key, get (root t) key =
                        if decide (key < m)%Z then get l key else get r key).
Proof.
  destruct (split_keeps_contents thirty_two) as (t & Hbuild & Hsplit).
  exists t. split; [exact Hbuild|]. apply Hsplit, subtrees_self.
Defined.

Lemma collectAll_children_ok children : ∀ accumulator,
  (∀ c, c ∈ children → ∀ acc, ∃ acc', collectAll c acc = Ok acc') →
  ∃ covering, collectAll_children children accumulator = Ok covering.
Proof.
  induction children as [|c cs IH]; intros accumulator Hok; simpl; [eauto|].
  destruct (Hok c ltac:(left) accumulator) as [acc' ->]. simpl.
  apply IH. intros c' Hc'. apply Hok. by right.
Qed.

(** [BTreeNode.split]: on a full node (32 strictly increasing separators and
    one more child than separators) whose children can be collected, the key
    at index [floor(size / 2)] is promoted and kept in neither half; the left
    half takes the separators before it and the children up to and including
    index [floor(size / 2)], the right half the separators and the children
    after; each half has one more child than separators; no separator other
    than the promoted one and no child is lost. *)
Theorem node_split_median keys children covering :
  length keys = MAX_NODE_SIZE → length children = S (length keys) →
  StronglySorted Z.lt keys →
  (∀ c, c ∈ children → ∀ acc, ∃ acc', collectAll c acc = Ok acc') →
  ∃ m l r, split (BTreeNode keys children covering) = Ok (m, l, r) ∧
           keys !! (length keys / 2) = Some m ∧
           keys = keys_of l ++ m :: keys_of r ∧
           children = children_of l ++ children_of r ∧
           length (keys_of l) = length keys / 2 ∧
           length (children_of l) = S (length (keys_of l)) ∧
           length (children_of r) = S (length (keys_of r)) ∧
           (m ∉ keys_of l) ∧ (m ∉ keys_of r).
Proof.
  intros Hlen Hchildren Hss Hok. apply StronglySorted_sorted in Hss.
  unfold MAX_NODE_SIZE in Hlen.
  destruct (lookup_lt_is_Some_2 keys 16) as [m Hm]; [lia|].
  unfold split. rewrite Hlen. change (32 / 2) with 16. rewrite Hm.
  change (16 + 1) with 17. unfold new_BTreeNode.
  destruct (collectAll_children_ok (take 17 children) ∅) as [cl ->].
  { intros c Hc. apply Hok. by eapply subseteq_take. }
  destruct (collectAll_children_ok (drop 17 children) ∅) as [cr ->].
  { intros c Hc. apply Hok. by eapply subseteq_drop. }
  simpl. eexists _, _, _. split; [done|]. split; [done|].
  cbn [keys_of children_of].
  split; [|split; [|split; [|split; [|split; [|split]]]]].
  - rewrite <- (take_drop_middle keys 16 m Hm) at 1. done.
  - by rewrite take_drop.
  - rewrite length_take. lia.
  - rewrite !length_take. lia.
  - rewrite !length_drop. lia.
  - intros Hin. apply elem_of_take in Hin as (i & Hi & Hlt).
    pose proof (Hss i 16 m m Hi Hm Hlt). lia.
  - intros Hin. apply list_elem_of_lookup in Hin as [i Hi].
    rewrite lookup_drop in Hi.
    pose proof (Hss 16 (17 + i) m m Hm Hi ltac:(lia)). lia.
Qed.

Lemma node_split_median_witness :
  ∃ m l r, split full_node_example = Ok (m, l, r) ∧
           keys_of full_node_example !! (length (keys_of full_node_example) / 2)
             = Some m ∧
           keys_of full_node_example = keys_of l ++ m :: keys_of r ∧
           children_of full_node_example = children_of l ++ children_of r ∧
           length (keys_of l) = length (keys_of full_node_example) / 2 ∧
           length (children_of l) = S (length (keys_of l)) ∧
           length (children_of r) = S (length (keys_of r)) ∧
           (m ∉ keys_of l) ∧ (m ∉ keys_of r).
Proof.
  apply (node_split_median (map Z.of_nat (seq 0 32))
           (replicate 33 (BTreeLeaf [] [])) ∅).
  - reflexivity.
  - reflexivity.
  - simpl. repeat (constructor; [|repeat (constructor; [reflexivity|])]);
      constructor.
  - intros c Hc. apply elem_of_replicate in Hc as [-> _]. intros acc.
    exists acc. reflexivity.
Defined.

(** ** The range operators on a built tree *)

Lemma docs_child_sub (children : list BTreeElement) j c :
  children !! j = Some c → docs c ⊆ ⋃ (map docs children).
Proof.
  intros Hc d Hd. apply elem_of_union_list. exists (docs c). split; [|done].
  apply list_elem_of_fmap. exists c. split; [done|]. by eapply list_elem_of_lookup_2.
Qed.

Lemma leaf_collect_up_sub p keys : ∀ values accumulator,
  length values = length keys →
  ∃ acc, leaf_collect_up p keys values accumulator = Ok acc ∧
         acc ⊆ accumulator ∪ ⋃ values.
Proof.
  induction keys as [|k ks IH]; intros values accumulator Hlen; simpl.
  - exists accumulator. split; [done|]. set_solver.
  - destruct values as [|v vs]; [done|]. destruct (p k).
    + destruct (IH vs (orInPlace accumulator v)) as (acc & -> & Hsub).
      { simpl in Hlen. lia. }
      exists acc. split; [done|]. unfold orInPlace in Hsub. set_solver.
    + exists accumulator. split; [done|]. set_solver.
Qed.

Lemma leaf_collect_down_sub p keys values : ∀ n accumulator,
  length values = length keys → n ≤ length keys →
  ∃ acc, leaf_collect_down p keys values n accumulator = Ok acc ∧
         acc ⊆ accumulator ∪ ⋃ values.
Proof.
  induction n as [|n IH]; intros accumulator Hlen Hn; simpl.
  - exists accumulator. split; [done|]. set_solver.
  - destruct (lookup_lt_is_Some_2 keys n) as [k ->]; [lia|].
    destruct (p k).
    + destruct (lookup_lt_is_Some_2 values n) as [v Hv]; [lia|]. rewrite Hv.
      destruct (IH (orInPlace accumulator v) Hlen ltac:(lia)) as (acc & -> & Hsub).
      exists acc. split; [done|]. unfold orInPlace in Hsub.
      assert (v ⊆ ⋃ values).
      { intros d Hd. apply elem_of_union_list. exists v. split; [|done].
        by eapply list_elem_of_lookup_2. }
      set_solver.
    + exists accumulator. split; [done|]. set_solver.
Qed.

Section node_loops.
Variables (p : Z → bool) (keys : list Z) (children : list BTreeElement).
Hypothesis children_wf :
  ∀ j c, children !! j = Some c → ∃ h lo hi, wf h lo hi c.

Lemma node_collect_down_sub : ∀ n accumulator,
  n < length children →
  ∃ b acc, node_collect_down p keys children n accumulator = Ok (b, acc) ∧
           b ≤ n ∧ acc ⊆ accumulator ∪ ⋃ (map docs children).
Proof using children_wf.
  induction n as [|n IH]; intros accumulator Hn; simpl.
  - exists 0, accumulator. split; [done|]. split; [done|]. set_solver.
  - destruct (keys !! n) as [k|].
    2:{ exists (S n), accumulator. split; [done|]. split; [done|]. set_solver. }
    destruct (p k).
    2:{ exists (S n), accumulator. split; [done|]. split; [done|]. set_solver. }
    rewrite at_child_lookup.
    destruct (lookup_lt_is_Some_2 children (n + 1)) as [c Hc]; [lia|].
    destruct (children_wf _ _ Hc) as (h & lo & hi & Hwf).
    rewrite Hc, (collectAll_wf _ _ _ _ _ Hwf). simpl.
    destruct (IH (accumulator ∪ docs c) ltac:(lia)) as (b & acc & -> & Hb & Hsub).
    exists b, acc. split; [done|]. split; [lia|].
    pose proof (docs_child_sub _ _ _ Hc). set_solver.
Qed.

Lemma node_collect_up_sub : ∀ ks i accumulator,
  i + length ks < length children →
  ∃ b acc, node_collect_up p ks children i accumulator = Ok (b, acc) ∧
           b ≤ i + length ks ∧ acc ⊆ accumulator ∪ ⋃ (map docs children).
Proof using children_wf.
  induction ks as [|k ks IH]; intros i accumulator Hi; simpl in *.
  - exists i, accumulator. split; [done|]. split; [lia|]. set_solver.
  - destruct (p k).
    2:{ exists i, accumulator. split; [done|]. split; [lia|]. set_solver. }
    rewrite at_child_lookup.
    destruct (lookup_lt_is_Some_2 children i) as [c Hc]; [lia|].
    destruct (children_wf _ _ Hc) as (h & lo & hi & Hwf).
    rewrite Hc, (collectAll_wf _ _ _ _ _ Hwf). simpl.
    destruct (IH (i + 1) (accumulator ∪ docs c) ltac:(lia))
      as (b & acc & -> & Hb & Hsub).
    exists b, acc. split; [done|]. split; [lia|].
    pose proof (docs_child_sub _ _ _ Hc). set_solver.
Qed.
End node_loops.

Lemma collectGt_node keys children covering accumulator key :
  collectGt (BTreeNode keys children covering) accumulator key =
  '(i, acc) ← node_collect_down (λ k, k >? key)%Z keys children
                (length keys) accumulator;
  at_child (λ c, collectGt c acc key) children i.
Proof. reflexivity. Qed.

Lemma collectGte_node keys children covering accumulator key :
  collectGte (BTreeNode keys children covering) accumulator key =
  '(i, acc) ← node_collect_down (λ k, k >=? key)%Z keys children
                (length keys) accumulator;
  at_child (λ c, collectGte c acc key) children i.
Proof. reflexivity. Qed.

Lemma collectLt_node keys children covering accumulator key :
  collectLt (BTreeNode keys children covering) accumulator key =
  '(i, acc) ← node_collect_up (λ k, k <? key)%Z keys children 0 accumulator;
  at_child (λ c, collectLt c acc key) children i.
Proof. reflexivity. Qed.

Lemma collectLte_node keys children covering accumulator key :
  collectLte (BTreeNode keys children covering) accumulator key =
  '(i, acc) ← node_collect_up (λ k, k <=? key)%Z keys children 0 accumulator;
  at_child (λ c, collectLte c acc key) children i.
Proof. reflexivity. Qed.

(** The step shared by the four operators at an inner node: the loop has
    returned the child index [b], within range, and the recursion on that
    child is covered by the induction hypothesis [IH]. *)
Ltac descend_after_loop IH Hwf children key Hloop Hb Hsub :=
  let Hlen := fresh "Hlen" in let Hch := fresh "Hch" in
  let c := fresh "c" in let Hc := fresh "Hc" in
  let acc := fresh "acc" in let Hrec := fresh "Hrec" in let Hacc := fresh "Hacc" in
  pose proof Hwf as (Hlen & _ & _ & _ & Hch & _);
  match type of Hloop with
  | _ = Ok (?b, ?acc1) =>
      destruct (lookup_lt_is_Some_2 children b ltac:(lia)) as [c Hc];
      destruct (IH _ _ c acc1 key (Hch _ _ Hc)) as (acc & Hrec & Hacc);
      exists acc; split;
      [rewrite Hloop; simpl; by rewrite at_child_lookup, Hc
      |pose proof (docs_child_sub _ _ _ Hc); simpl; set_solver]
  end.

Lemma collectGt_sub h : ∀ lo hi e accumulator key,
  wf h lo hi e →
  ∃ acc, collectGt e accumulator key = Ok acc ∧ acc ⊆ accumulator ∪ docs e.
Proof.
  induction h as [|h IH]; intros lo hi [keys values|keys children covering]
    accumulator key; try done.
  - intros (Hlen & _). rewrite docs_leaf by done.
    by apply leaf_collect_down_sub.
  - intros Hwf. rewrite collectGt_node.
    destruct (node_collect_down_sub (λ k, k >? key)%Z keys children
                ltac:(intros j c Hc; destruct Hwf as (_ & _ & _ & _ & Hch & _); eauto)
                (length keys) accumulator ltac:(destruct Hwf as (-> & _); lia))
      as (b & acc1 & Hloop & Hb & Hsub).
    descend_after_loop IH Hwf children key Hloop Hb Hsub.
Qed.

Lemma collectGte_sub h : ∀ lo hi e accumulator key,
  wf h lo hi e →
  ∃ acc, collectGte e accumulator key = Ok acc ∧ acc ⊆ accumulator ∪ docs e.
Proof.
  induction h as [|h IH]; intros lo hi [keys values|keys children covering]
    accumulator key; try done.
  - intros (Hlen & _). rewrite docs_leaf by done.
    by apply leaf_collect_down_sub.
  - intros Hwf. rewrite collectGte_node.
    destruct (node_collect_down_sub (λ k, k >=? key)%Z keys children
                ltac:(intros j c Hc; destruct Hwf as (_ & _ & _ & _ & Hch & _); eauto)
                (length keys) accumulator ltac:(destruct Hwf as (-> & _); lia))
      as (b & acc1 & Hloop & Hb & Hsub).
    descend_after_loop IH Hwf children key Hloop Hb Hsub.
Qed.

Lemma collectLt_sub h : ∀ lo hi e accumulator key,
  wf h lo hi e →
  ∃ acc, collectLt e accumulator key = Ok acc ∧ acc ⊆ accumulator ∪ docs e.
Proof.
  induction h as [|h IH]; intros lo hi [keys values|keys children covering]
    accumulator key; try done.
  - intros (Hlen & _). rewrite docs_leaf by done.
    by apply leaf_collect_up_sub.
  - intros Hwf. rewrite collectLt_node.
    destruct (node_collect_up_sub (λ k, k <? key)%Z children
                ltac:(intros j c Hc; destruct Hwf as (_ & _ & _ & _ & Hch & _); eauto)
                keys 0 accumulator ltac:(destruct Hwf as (-> & _); lia))
      as (b & acc1 & Hloop & Hb & Hsub).
    descend_after_loop IH Hwf children key Hloop Hb Hsub.
Qed.

Lemma collectLte_sub h : ∀ lo hi e accumulator key,
  wf h lo hi e →
  ∃ acc, collectLte e accumulator key = Ok acc ∧ acc ⊆ accumulator ∪ docs e.
Proof.
  induction h as [|h IH]; intros lo hi [keys values|keys children covering]
    accumulator key; try done.
  - intros (Hlen & _). rewrite docs_leaf by done.
    by apply leaf_collect_up_sub.
  - intros Hwf. rewrite collectLte_node.
    destruct (node_collect_up_sub (λ k, k <=? key)%Z children
                ltac:(intros j c Hc; destruct Hwf as (_ & _ & _ & _ & Hch & _); eauto)
                keys 0 accumulator ltac:(destruct Hwf as (-> & _); lia))
      as (b & acc1 & Hloop & Hb & Hsub).
    descend_after_loop IH Hwf children key Hloop Hb Hsub.
Qed.

(** On a built tree the four range operators return for every bound (no
    [TypeError]), and every document they return was inserted under some
    key. *)
Theorem range_queries_return ops bound :
  ∃ t g1 g2 g3 g4,
    build ops = Ok t ∧
    BTree_gt t bound = Ok g1 ∧ BTree_gte t bound = Ok g2 ∧
    BTree_lt t bound = Ok g3 ∧ BTree_lte t bound = Ok g4 ∧
    ∀ d, d ∈ g1 ∪ g2 ∪ g3 ∪ g4 → ∃ k, (k, d) ∈ ops.
Proof.
  destruct (build_docs ops) as (t & Hbuild & [h Hwf] & Hdocs).
  destruct (collectGt_sub h _ _ _ ∅ bound Hwf) as (g1 & H1 & Hs1).
  destruct (collectGte_sub h _ _ _ ∅ bound Hwf) as (g2 & H2 & Hs2).
  destruct (collectLt_sub h _ _ _ ∅ bound Hwf) as (g3 & H3 & Hs3).
  destruct (collectLte_sub h _ _ _ ∅ bound Hwf) as (g4 & H4 & Hs4).
  exists t, g1, g2, g3, g4. do 5 (split; [done|]).
  intros d Hd. apply Hdocs. set_solver.
Qed.

Lemma gt_sound_at ops t v d0 :
  build ops = Ok t → (v, d0) ∈ ops →
  ∃ g, BTree_gt t v = Ok g ∧ ∀ d, d ∈ g → ∃ k, (v < k)%Z ∧ (k, d) ∈ ops.
Proof.
  intros Hbuild Hin.
  destruct (build_ok ops) as (t0 & Hbuild0 & [h Hwf] & Hget).
  rewrite Hbuild in Hbuild0. injection Hbuild0 as <-.
  pose proof (reference_spec ops v) as Href.
  destruct (reference ops !! v) as [s|] eqn:Hs; [|by destruct (Href d0)].
  pose proof (Hget v) as Hgetv. rewrite Hs in Hgetv.
  destruct (collectGt_present h _ _ _ ∅ _ _ Hwf Hgetv) as (g & Hg & Hsub).
  exists g. split; [done|]. intros d Hd.
  destruct (Hsub d Hd) as [Hempty|(k & s' & Hk & Hgetk & Hds)]; [set_solver|].
  exists k. split; [done|].
  unfold BTree_get in Hget. rewrite Hget in Hgetk. injection Hgetk as Hrefk.
  pose proof (reference_spec ops k) as Hrefk'. rewrite Hrefk in Hrefk'.
  by apply Hrefk'.
Qed.

(** [gt] at a bound that is itself a key of the tree returns only documents
    inserted under a strictly greater key. *)
Theorem gt_at_indexed_bound ops bound docId :
  (bound, docId) ∈ ops →
  ∃ t g, build ops = Ok t ∧ BTree_gt t bound = Ok g ∧
         ∀ d, d ∈ g → ∃ k, (bound < k)%Z ∧ (k, d) ∈ ops.
Proof.
  intros Hin. destruct (build_ok ops) as (t & Hbuild & _).
  destruct (gt_sound_at ops t bound docId Hbuild Hin) as (g & Hg & Hsound).
  by exists t, g.
Qed.

Lemma gt_at_indexed_bound_witness :
  ∃ t g, build scenario = Ok t ∧ BTree_gt t 5 = Ok g ∧
         ∀ d, d ∈ g → ∃ k, (5 < k)%Z ∧ (k, d) ∈ scenario.
Proof.
  apply (gt_at_indexed_bound scenario 5 100).
  unfold scenario. apply list_elem_of_here.
Defined.

(** ** The range operators on a single leaf *)

Lemma leaf_collect_down_all p keys values : ∀ n accumulator,
  length values = length keys → n ≤ length keys →
  (∀ i k, i < n → keys !! i = Some k → p k = true) →
  leaf_collect_down p keys values n accumulator =
  Ok (accumulator ∪ ⋃ (take n values)).
Proof.
  induction n as [|n IH]; intros accumulator Hlen Hn Hall; simpl.
  - f_equal. set_solver.
  - destruct (lookup_lt_is_Some_2 keys n) as [k Hk]; [lia|].
    destruct (lookup_lt_is_Some_2 values n) as [v Hv]; [lia|].
    rewrite Hk, (Hall n k) by (done || lia). rewrite Hv.
    rewrite IH by (done || lia || (intros; eapply Hall; [|done]; lia)).
    f_equal. rewrite (take_S_r _ _ _ Hv), union_list_app_L. simpl.
    unfold orInPlace. set_solver.
Qed.

Lemma leaf_collect_up_all p keys : ∀ values accumulator,
  length values = length keys →
  Forall (λ k, p k = true) keys →
  leaf_collect_up p keys values accumulator = Ok (accumulator ∪ ⋃ values).
Proof.
  induction keys as [|k ks IH]; intros values accumulator Hlen Hall; simpl.
  - destruct values; [|done]. f_equal. set_solver.
  - destruct values as [|v vs]; [done|].
    apply Forall_cons in Hall as [-> Hall].
    rewrite IH by (done || simpl in Hlen; lia). f_equal.
    unfold orInPlace. set_solver.
Qed.

Section leaf_scans.
Variables (P : Z → Prop) (p : Z → bool) (keys : list Z) (values : list bitmap).
Context `{∀ k, Decision (P k)}.
Hypothesis p_spec : ∀ k, p k = true ↔ P k.
Hypothesis keys_sorted : sorted keys.
Hypothesis same_length : length values = length keys.

(** A descending scan whose test passes from a key to every smaller key. *)
Lemma leaf_scan_down :
  (∀ k k', (k ≤ k')%Z → P k' → P k) →
  leaf_collect_down p keys values (length keys) ∅ =
  Ok (if decide (Forall P keys) then ⋃ (take (length keys) values) else ∅).
Proof using p_spec keys_sorted same_length.
  intros Hdown. case_decide as Hall.
  - rewrite leaf_collect_down_all; [f_equal; set_solver|done..|].
    intros i k _ Hk. apply p_spec. rewrite Forall_forall in Hall.
    apply Hall. by eapply list_elem_of_lookup_2.
  - destruct (length keys) as [|n] eqn:Hn.
    { destruct Hall. apply length_zero_iff_nil in Hn as ->. constructor. }
    simpl. destruct (lookup_lt_is_Some_2 keys n) as [k Hk]; [lia|].
    rewrite Hk. destruct (p k) eqn:Hpk; [|done].
    destruct Hall. apply Forall_forall. intros k' Hk'.
    apply list_elem_of_lookup in Hk' as [i Hi].
    apply Hdown with k; [|by apply p_spec].
    destruct (decide (i = n)) as [->|]; [simplify_eq; lia|].
    apply lookup_lt_Some in Hi as Hlt.
    pose proof (keys_sorted i n k' k Hi Hk ltac:(lia)). lia.
Qed.

(** An ascending scan whose test passes from a key to every greater key. *)
Lemma leaf_scan_up :
  (∀ k k', (k ≤ k')%Z → P k → P k') →
  leaf_collect_up p keys values ∅ =
  Ok (if decide (Forall P keys) then ⋃ (take (length keys) values) else ∅).
Proof using p_spec keys_sorted same_length.
  intros Hup. case_decide as Hall.
  - rewrite leaf_collect_up_all; [|done|].
    + f_equal. rewrite take_ge by lia. set_solver.
    + eapply Forall_impl; [done|]. intros k. apply p_spec.
  - destruct keys as [|k ks] eqn:Hkeys; [destruct Hall; constructor|].
    simpl. destruct (p k) eqn:Hpk; [|done].
    destruct Hall. apply Forall_forall. intros k' Hk'.
    apply list_elem_of_lookup in Hk' as [i Hi].
    apply Hup with k; [|by apply p_spec].
    destruct i as [|i]; [simplify_eq/=; lia|].
    pose proof (keys_sorted 0 (S i) k k' eq_refl Hi ltac:(lia)). lia.
Qed.
End leaf_scans.

(** While the root is still a leaf, each range operator returns either every
    document of the tree or none: [gt bound] returns all of them when every
    key is less than [bound] and none otherwise; [gte] likewise with "at most
    [bound]", [lt] with "greater than [bound]" and [lte] with "at least
    [bound]". *)
Theorem leaf_root_ranges ops bound :
  ∃ t, build ops = Ok t ∧
       ∀ keys values, root t = BTreeLeaf keys values →
         BTree_gt t bound =
           Ok (if decide (Forall (λ k, (k < bound)%Z) keys)
               then docs (root t) else ∅) ∧
         BTree_gte t bound =
           Ok (if decide (Forall (λ k, (k ≤ bound)%Z) keys)
               then docs (root t) else ∅) ∧
         BTree_lt t bound =
           Ok (if decide (Forall (λ k, (bound < k)%Z) keys)
               then docs (root t) else ∅) ∧
         BTree_lte t bound =
           Ok (if decide (Forall (λ k, (bound ≤ k)%Z) keys)
               then docs (root t) else ∅).
Proof.
  destruct (build_ok ops) as (t & Hbuild & [h Hwf] & _).
  exists t. split; [done|]. intros keys values Hroot.
  unfold BTree_gt, BTree_gte, BTree_lt, BTree_lte. rewrite Hroot in *.
  destruct h as [|h]; [|done]. destruct Hwf as (Hlen & _ & Hs & _).
  simpl. split; [|split; [|split]].
  - apply (leaf_scan_down (λ k, (k < bound)%Z)); try done; intros; lia.
  - apply (leaf_scan_down (λ k, (k ≤ bound)%Z)); try done; intros; lia.
  - apply (leaf_scan_up (λ k, (bound < k)%Z)); try done; intros; lia.
  - apply (leaf_scan_up (λ k, (bound ≤ k)%Z)); try done; intros; lia.
Qed.

Lemma leaf_root_ranges_witness :
  ∃ t keys values,
    build scenario = Ok t ∧ root t = BTreeLeaf keys values ∧
    BTree_gt t 5 =
      Ok (if decide (Forall (λ k, (k < 5)%Z) keys) then docs (root t) else ∅) ∧
    BTree_gte t 5 =
      Ok (if decide (Forall (λ k, (k ≤ 5)%Z) keys) then docs (root t) else ∅) ∧
    BTree_lt t 5 =
      Ok (if decide (Forall (λ k, (5 < k)%Z) keys) then docs (root t) else ∅) ∧
    BTree_lte t 5 =
      Ok (if decide (Forall (λ k, (5 ≤ k)%Z) keys) then docs (root t) else ∅).
Proof.
  destruct (leaf_root_ranges scenario 5) as (t & Hbuild & Hranges).
  pose proof Hbuild as Hshape. vm_compute in Hshape. injection Hshape as <-.
  eexists _, _, _. split; [exact Hbuild|]. split; [reflexivity|].
  eapply Hranges. reflexivity.
Defined.

(** ** The selector, further *)

Lemma quickSelect_result ops t vals :
  build ops = Ok t →
  ∀ fuel rand (C : bitmap),
    size C ≤ fuel → C ≠ ∅ →
    (∀ d, d ∈ C → ∃ v, vals !! d = Some v ∧ (v, d) ∈ ops ∧
                       ∀ k, (k, d) ∈ ops → k = v) →
    ∃ d vd, quickSelect fuel rand C (size C) t vals = Ok d ∧
            d ∈ C ∧ vals !! d = Some vd ∧
            ∀ p0 v0, select C (random_index (rand 0) (size C)) = Some p0 →
                     vals !! p0 = Some v0 → (v0 ≤ vd)%Z.
Proof.
  intros Hbuild. induction fuel as [|fuel IH]; intros rand C Hsize Hne Hidx.
  - pose proof (bitmap_size_pos C Hne). lia.
  - pose proof (bitmap_size_pos C Hne) as Hpos. simpl.
    destruct (select_lt C (random_index (rand 0) (size C)))
      as (pivot & Hsel & Hpivot); [by apply random_index_lt|].
    rewrite Hsel.
    destruct (Hidx pivot Hpivot) as (v & Hv & Hin & Honly). rewrite Hv.
    destruct (gt_sound_at ops t v pivot Hbuild Hin) as (g & -> & Hg).
    simpl. case_bool_decide as Hzero.
    + exists pivot, v. split; [done|]. split; [done|]. split; [done|].
      intros p0 v0 [= <-] Hv0. rewrite Hv in Hv0. injection Hv0 as <-. lia.
    + assert (Hnot : pivot ∉ g).
      { intros Hp. destruct (Hg pivot Hp) as (k & Hk & Hkin).
        apply Honly in Hkin. lia. }
      assert (Hlt : size (and C g) < size C).
      { apply subset_size. unfold and. set_solver. }
      assert (Hne' : and C g ≠ ∅).
      { intros Hempty. apply Hzero. rewrite Hempty. apply size_empty. }
      assert (Hidx' : ∀ d, d ∈ and C g → ∃ v, vals !! d = Some v ∧ (v, d) ∈ ops ∧
                                              ∀ k, (k, d) ∈ ops → k = v).
      { intros d Hd. apply Hidx. unfold and in Hd. set_solver. }
      destruct (IH (λ n, rand (S n)) (and C g) ltac:(lia) Hne' Hidx')
        as (d & vd & Hq & Hd & Hvd & Hmono).
      exists d, vd. split; [done|]. split; [unfold and in Hd; set_solver|].
      split; [done|]. intros p0 v0 [= <-] Hv0. rewrite Hv in Hv0.
      injection Hv0 as <-.
      destruct (select_lt (and C g)
                  (random_index (rand 1) (size (and C g))))
        as (p1 & Hsel1 & Hp1).
      { apply random_index_lt. by apply bitmap_size_pos. }
      destruct (Hidx' p1 Hp1) as (v1 & Hv1 & Hin1 & Honly1).
      specialize (Hmono p1 v1 Hsel1 Hv1).
      assert (Hp1g : p1 ∈ g) by (unfold and in Hp1; set_solver).
      destruct (Hg p1 Hp1g) as (k & Hk & Hkin). apply Honly1 in Hkin. lia.
Qed.

(** Under the conditions of the selector (a non-empty candidate set whose
    members each have a sort value and are indexed under that value only),
    the selector returns a member of the candidate set, and the sort value of
    the document it returns is at least the sort value of the first document
    it sampled. *)
Theorem quickSelect_returns_candidate ops vals (C : bitmap) rand :
  C ≠ ∅ →
  (∀ d, d ∈ C → ∃ v, vals !! d = Some v ∧ (v, d) ∈ ops ∧
                     ∀ k, (k, d) ∈ ops → k = v) →
  ∃ t d vd, build ops = Ok t ∧
            quickSelect (size C) rand C (size C) t vals = Ok d ∧
            d ∈ C ∧ vals !! d = Some vd ∧
            ∀ p0 v0, select C (random_index (rand 0) (size C)) = Some p0 →
                     vals !! p0 = Some v0 → (v0 ≤ vd)%Z.
Proof.
  intros Hne Hidx. destruct (build_ok ops) as (t & Hbuild & _).
  destruct (quickSelect_result ops t vals Hbuild (size C) rand C
              ltac:(lia) Hne Hidx) as (d & vd & Hq).
  by exists t, d, vd.
Qed.

(** While the root is still a leaf, the selector returns the first document
    it samples, in a single call: [gt] at a key of a leaf adds nothing. *)
Theorem quickSelect_leaf_root ops vals (C : bitmap) rand :
  C ≠ ∅ →
  (∀ d, d ∈ C → ∃ v, vals !! d = Some v ∧ (v, d) ∈ ops ∧
                     ∀ k, (k, d) ∈ ops → k = v) →
  ∃ t pivot, build ops = Ok t ∧
             select C (random_index (rand 0) (size C)) = Some pivot ∧
             ∀ keys values fuel,
               root t = BTreeLeaf keys values →
               quickSelect (S fuel) rand C (size C) t vals = Ok pivot.
Proof.
  intros Hne Hidx. destruct (build_ok ops) as (t & Hbuild & [h Hwf] & Hget).
  destruct (select_lt C (random_index (rand 0) (size C)))
    as (pivot & Hsel & Hpivot).
  { apply random_index_lt. by apply bitmap_size_pos. }
  exists t, pivot. split; [done|]. split; [done|].
  intros keys values fuel Hroot. simpl. rewrite Hsel.
  destruct (Hidx pivot Hpivot) as (v & -> & Hin & _).
  pose proof (reference_spec ops v) as Href.
  destruct (reference ops !! v) as [s|] eqn:Hs; [|by destruct (Href pivot)].
  pose proof (Hget v) as Hgetv. rewrite Hs in Hgetv.
  unfold BTree_get in Hgetv. unfold BTree_gt. rewrite Hroot in *.
  destruct h as [|h]; [|done]. injection Hgetv as Hleaf.
  rewrite (leaf_collectGt_present _ _ _ _ _ _ _ Hwf Hleaf). simpl.
  unfold and. rewrite bool_decide_eq_true_2; [done|].
  replace (C ∩ ∅) with (∅ : bitmap) by set_solver. apply size_empty.
Qed.

(** The conditions of the selector, on the selector scenario. *)
Ltac selector_scenario_conditions :=
  [> intros Hempty; apply (f_equal size) in Hempty; vm_compute in Hempty;
     discriminate Hempty
   | intros d Hd; unfold selector_candidates in Hd;
     rewrite !elem_of_union, !elem_of_singleton in Hd;
     unfold selector_ops;
     destruct Hd as [[[->| ->]| ->]| ->];
     [exists 10%Z|exists 30%Z|exists 30%Z|exists 5%Z];
     (split; [reflexivity|]); rewrite !elem_of_cons; (split; [tauto|]);
     intros k; rewrite !elem_of_cons, elem_of_nil; intros H;
     repeat (destruct H as [H|H]; [by simplify_eq|]); destruct H ].

Lemma quickSelect_returns_candidate_witness :
  ∃ t d vd, build selector_ops = Ok t ∧
            quickSelect (size selector_candidates) (λ _, 0) selector_candidates
              (size selector_candidates) t selector_values = Ok d ∧
            d ∈ selector_candidates ∧ selector_values !! d = Some vd ∧
            ∀ p0 v0,
              select selector_candidates
                (random_index 0 (size selector_candidates)) = Some p0 →
              selector_values !! p0 = Some v0 → (v0 ≤ vd)%Z.
Proof.
  apply (quickSelect_returns_candidate selector_ops selector_values
           selector_candidates (λ _, 0)); selector_scenario_conditions.
Defined.

Lemma quickSelect_leaf_root_witness :
  ∃ t pivot, build selector_ops = Ok t ∧
             select selector_candidates
               (random_index 0 (size selector_candidates)) = Some pivot ∧
             ∀ keys values fuel,
               root t = BTreeLeaf keys values →
               quickSelect (S fuel) (λ _, 0) selector_candidates
                 (size selector_candidates) t selector_values = Ok pivot.
Proof.
  apply (quickSelect_leaf_root selector_ops selector_values
           selector_candidates (λ _, 0)); selector_scenario_conditions.
Defined.

(** ** Occupancy *)

Lemma occupied_children keys children covering :
  occupied (BTreeNode keys children covering) →
  Forall (λ c, half_full c ∧ occupied c) children.
Proof. by inversion 1. Qed.

Lemma split_occupied e m l r :
  full e = true → occupied e → split e = Ok (m, l, r) →
  (half_full l ∧ occupied l) ∧ (half_full r ∧ occupied r).
Proof.
  destruct e as [keys values|keys children covering]; unfold full, split;
    intros Hfull Hocc; apply bool_decide_eq_true in Hfull;
    pose proof (Nat.div_mod_eq (length keys) 2);
    pose proof (Nat.mod_upper_bound (length keys) 2 ltac:(lia));
    set (medianIdx := length keys / 2) in *.
  - unfold MAX_LEAF_SIZE in *.
    destruct (keys !! medianIdx); [|done]. intros [= <- <- <-].
    unfold half_full. rewrite length_take, length_drop.
    unfold MAX_LEAF_SIZE. change (32 / 2) with 16.
    repeat split; (lia || constructor).
  - unfold MAX_NODE_SIZE in *.
    apply occupied_children in Hocc.
    destruct (keys !! medianIdx); [|done]. unfold new_BTreeNode.
    destruct (collectAll_children (take _ children) ∅); try done.
    destruct (collectAll_children (drop _ children) ∅); try done.
    intros [= <- <- <-]. unfold half_full.
    rewrite length_take, length_drop.
    unfold MAX_NODE_SIZE. change (32 / 2 - 1) with 15.
    repeat split; try lia; constructor.
    + by apply Forall_take.
    + by apply Forall_drop.
Qed.

Lemma elem_insert_occupied fuel : ∀ e key value e',
  elem_insert fuel e key value = Ok e' → occupied e →
  occupied e' ∧ (half_full e → half_full e').
Proof.
  induction fuel as [|fuel IH]; intros e key value e'; [done|].
  destruct e as [keys values|keys children covering].
  - simpl. intros [= <-] _. unfold leaf_insert.
    destruct (leaf_get keys values key); (split; [constructor|]); [done|].
    simpl. rewrite length_splice. lia.
  - rewrite elem_insert_node. intros Hins Hocc.
    pose proof (occupied_children _ _ _ Hocc) as Hch.
    destruct (children !! findIndex keys key) as [c|] eqn:Hc; [|done].
    pose proof Hch as Hcocc. rewrite Forall_lookup in Hcocc.
    destruct (Hcocc _ _ Hc) as [Hhc Hoc].
    destruct (full c) eqn:Hfull.
    + destruct (split c) as [[[m l] r]| | |] eqn:Hsplit; try done.
      simpl in Hins.
      destruct (split_occupied c m l r Hfull Hoc Hsplit) as [Hl Hr].
      apply IH in Hins as [Hocc' Hhalf].
      * split; [done|]. intros Hh. apply Hhalf. simpl in *.
        rewrite length_splice. lia.
      * constructor. rewrite (split_children _ _ c) by done.
        apply Forall_app. split; [by apply Forall_take|].
        do 2 (apply Forall_cons; split; [done|]). by apply Forall_drop.
    + destruct (elem_insert fuel c key value) as [c'| | |] eqn:Hc'; try done.
      simpl in Hins. injection Hins as <-.
      apply IH in Hc' as [Hoc' Hhc']; [|done].
      split; [|done]. constructor. apply Forall_insert; [done|]. auto.
Qed.

Lemma BTree_insert_fuel_occupied fuel : ∀ t key value t',
  BTree_insert_fuel fuel t key value = Ok t' →
  occupied (root t) → occupied (root t').
Proof.
  induction fuel as [|fuel IH]; intros t key value t'; [done|].
  rewrite BTree_insert_fuel_S. intros Hins Hocc.
  destruct (full (root t)) eqn:Hfull.
  - destruct (split (root t)) as [[[m l] r]| | |] eqn:Hsplit; try done.
    simpl in Hins. unfold new_BTreeNode in Hins.
    destruct (collectAll_children [l; r] ∅); try done. simpl in Hins.
    destruct (split_occupied _ m l r Hfull Hocc Hsplit) as [Hl Hr].
    apply IH in Hins; [done|]. simpl. constructor.
    by repeat (apply Forall_cons; split; [done|]).
  - destruct (elem_insert fuel (root t) key value) as [e| | |] eqn:He; try done.
    simpl in Hins. injection Hins as <-. simpl.
    by apply elem_insert_occupied in He as [? _].
Qed.

Lemma insert_all_occupied ops : ∀ t t',
  insert_all t ops = Ok t' → occupied (root t) → occupied (root t').
Proof.
  induction ops as [|[key value] ops IH]; intros t t'; simpl.
  - by intros [= <-].
  - destruct (BTree_insert t key value) as [t1| | |] eqn:Hins; try done.
    simpl. intros Hall Hocc. apply (IH t1); [done|].
    by eapply BTree_insert_fuel_occupied.
Qed.

Lemma subtrees_occupied h : ∀ lo hi e e',
  wf h lo hi e → occupied e → e' ∈ subtrees e → occupied e'.
Proof.
  induction h as [|h IH]; intros lo hi [keys values|keys children covering] e';
    try done.
  - intros _ Hocc He'. by apply list_elem_of_singleton in He' as ->.
  - intros Hwf Hocc He'. simpl in He'.
    apply elem_of_cons in He' as [->|He']; [done|].
    apply list_elem_of_In, in_concat in He' as (l & Hl & He').
    apply in_map_iff in Hl as (c & <- & Hc).
    apply list_elem_of_In, list_elem_of_lookup in Hc as [j Hj].
    destruct Hwf as (_ & _ & _ & _ & Hch & _).
    apply occupied_children in Hocc. rewrite Forall_lookup in Hocc.
    destruct (Hocc _ _ Hj) as [_ Hoc].
    eapply IH; [by apply Hch|done|]. by apply list_elem_of_In.
Qed.

(** In a built tree every element other than the root is at least half full:
    a child that is a leaf holds at least 16 keys, a child that is an inner
    node at least 15 separators. *)
Theorem children_half_full ops :
  ∃ t, build ops = Ok t ∧
       ∀ keys children covering c,
         BTreeNode keys children covering ∈ subtrees (root t) →
         c ∈ children → half_full c.
Proof.
  destruct (build_ok ops) as (t & Hbuild & [h Hwf] & _).
  exists t. split; [done|]. intros keys children covering c Hin Hc.
  assert (Hocc : occupied (root t)).
  { apply (insert_all_occupied ops new_BTree); [done|]. constructor. }
  pose proof (subtrees_occupied _ _ _ _ _ Hwf Hocc Hin) as Hnode.
  apply occupied_children in Hnode. rewrite Forall_forall in Hnode.
  by destruct (Hnode c Hc).
Qed.

Lemma children_half_full_witness :
  ∃ t, build forty = Ok t ∧ ∀ c, c ∈ children_of (root t) → half_full c.
Proof.
  destruct (children_half_full forty) as (t & Hbuild & Hhalf).
  exists t. split; [exact Hbuild|]. intros c Hc.
  pose proof (subtrees_self (root t)) as Hself.
  destruct (root t) as [keys values|keys children covering].
  - apply elem_of_nil in Hc. destruct Hc.
  - exact (Hhalf keys children covering c Hself Hc).
Defined.

(** ** The keys and the posting sets in the leaves *)

Lemma concat_sorted (ls : list (list Z)) :
  (∀ i l, ls !! i = Some l → StronglySorted Z.lt l) →
  (∀ i j l l' a b, i < j → ls !! i = Some l → ls !! j = Some l' →
                   a ∈ l → b ∈ l' → (a < b)%Z) →
  StronglySorted Z.lt (concat ls).
Proof.
  induction ls as [|x ls IH]; intros Hall Hacross; simpl; [constructor|].
  apply StronglySorted_app_2.
  - intros a b Ha Hb.
    apply list_elem_of_In, in_concat in Hb as (l' & Hl' & Hb).
    apply list_elem_of_In, list_elem_of_lookup in Hl' as [j Hj].
    apply (Hacross 0 (S j) x l' a b); [lia|done|done|done|].
    by apply list_elem_of_In.
  - by apply (Hall 0).
  - apply IH.
    + intros i l Hl. by apply (Hall (S i)).
    + intros i j l l' a b Hij Hl Hl'. apply (Hacross (S i) (S j)); [lia|done..].
Qed.

Lemma leaf_keys_sorted_wf h : ∀ lo hi e,
  wf h lo hi e → StronglySorted Z.lt (leaf_keys e).
Proof.
  induction h as [|h IH]; intros lo hi [keys values|keys children covering];
    try done.
  - intros (_ & _ & Hs & _). by apply sorted_StronglySorted.
  - intros Hwf. pose proof Hwf as (Hlen & _ & Hs & _ & Hch & _). simpl.
    apply concat_sorted.
    + intros i l Hl. change (map leaf_keys) with (fmap (M:=list) leaf_keys) in Hl.
      rewrite list_lookup_fmap in Hl.
      destruct (children !! i) as [c|] eqn:Hc; [|done]. injection Hl as <-.
      eapply IH. by apply Hch.
    + intros i j l l' a b Hij Hl Hl'.
      change (map leaf_keys) with (fmap (M:=list) leaf_keys) in Hl, Hl'.
      rewrite list_lookup_fmap in Hl, Hl'.
      destruct (children !! i) as [c|] eqn:Hc; [|done]. injection Hl as <-.
      destruct (children !! j) as [c'|] eqn:Hc'; [|done]. injection Hl' as <-.
      intros Ha Hb.
      destruct (leaf_keys_bounds _ _ _ _ _ (Hch _ _ Hc) Ha) as [_ Hhi].
      destruct (leaf_keys_bounds _ _ _ _ _ (Hch _ _ Hc') Hb) as [Hlo _].
      apply lookup_lt_Some in Hc' as Hj.
      destruct (lookup_lt_is_Some_2 keys i) as [s Hsi]; [lia|].
      unfold child_hi in Hhi. rewrite Hsi in Hhi. simpl in Hhi.
      destruct j as [|j]; [lia|]. unfold child_lo in Hlo.
      destruct (lookup_lt_is_Some_2 keys j) as [s' Hsj]; [lia|].
      rewrite Hsj in Hlo. simpl in Hlo.
      destruct (decide (i = j)) as [->|]; [simplify_eq; lia|].
      pose proof (Hs i j s s' Hsi Hsj ltac:(lia)). lia.
Qed.

Lemma leaf_slot_get h : ∀ lo hi e keys values i k s,
  wf h lo hi e → BTreeLeaf keys values ∈ subtrees e →
  keys !! i = Some k → values !! i = Some s →
  get e k = Ok (Some s).
Proof.
  induction h as [|h IH]; intros lo hi [keys0 values0|keys0 children covering]
    keys values i k s; try done.
  - intros (_ & _ & Hs & _) Hin Hk Hv.
    apply list_elem_of_singleton in Hin as [= <- <-].
    simpl. f_equal. by rewrite (leaf_get_lookup _ _ i).
  - intros Hwf Hin Hk Hv. simpl in Hin.
    apply elem_of_cons in Hin as [?|Hin]; [done|].
    apply list_elem_of_In, in_concat in Hin as (l & Hl & Hin).
    apply in_map_iff in Hl as (c & <- & Hc).
    apply list_elem_of_In, list_elem_of_lookup in Hc as [j Hj].
    pose proof Hwf as (_ & _ & _ & _ & Hch & _).
    assert (Hget : get c k = Ok (Some s)).
    { eapply IH; [by apply Hch| |done..]. by apply list_elem_of_In. }
    destruct (get_in_bounds _ _ _ _ _ _ (Hch _ _ Hj) Hget) as [Hlo Hhi].
    rewrite get_node. unfold findChildIndex.
    rewrite (node_route _ _ _ _ _ _ j k Hwf); [by rewrite Hj| |done..].
    by eapply lookup_lt_Some.
Qed.

Lemma leaf_keys_get h : ∀ lo hi e k,
  wf h lo hi e → k ∈ leaf_keys e ↔ ∃ s, get e k = Ok (Some s).
Proof.
  induction h as [|h IH]; intros lo hi [keys values|keys children covering] k;
    try done.
  - intros (Hlen & _ & Hs & _). simpl. split.
    + intros Hk. apply list_elem_of_lookup in Hk as [i Hi].
      destruct (lookup_lt_is_Some_2 values i) as [s Hv].
      { apply lookup_lt_Some in Hi. lia. }
      exists s. f_equal. by rewrite (leaf_get_lookup _ _ i).
    + intros [s [= Hget]]. apply leaf_get_Some in Hget as (i & _ & Hi & _).
      by eapply list_elem_of_lookup_2.
  - intros Hwf. pose proof Hwf as (Hlen & _ & _ & _ & Hch & _). split.
    + intros Hk. simpl in Hk.
      apply list_elem_of_In, in_concat in Hk as (l & Hl & Hk).
      apply in_map_iff in Hl as (c & <- & Hc).
      apply list_elem_of_In, list_elem_of_lookup in Hc as [j Hj].
      apply list_elem_of_In in Hk.
      destruct (leaf_keys_bounds _ _ _ _ _ (Hch _ _ Hj) Hk) as [Hlo Hhi].
      apply (IH _ _ _ _ (Hch _ _ Hj)) in Hk as [s Hget].
      exists s. rewrite get_node. unfold findChildIndex.
      rewrite (node_route _ _ _ _ _ _ j k Hwf); [by rewrite Hj| |done..].
      by eapply lookup_lt_Some.
    + intros [s Hget]. rewrite get_node in Hget.
      destruct (children !! findChildIndex keys k) as [c|] eqn:Hc; [|done].
      simpl. apply list_elem_of_In, in_concat. exists (leaf_keys c). split.
      * apply in_map. apply list_elem_of_In. by eapply list_elem_of_lookup_2.
      * apply list_elem_of_In. apply (IH _ _ _ _ (Hch _ _ Hc)). eauto.
Qed.

(** The leaves of a built tree, read from left to right, hold exactly the
    keys that were inserted, each once, in strictly increasing order. *)
Theorem keys_in_order ops :
  ∃ t, build ops = Ok t ∧
       StronglySorted Z.lt (leaf_keys (root t)) ∧
       ∀ k, k ∈ leaf_keys (root t) ↔ ∃ d, (k, d) ∈ ops.
Proof.
  destruct (build_ok ops) as (t & Hbuild & [h Hwf] & Hget).
  exists t. split; [done|]. split; [by eapply leaf_keys_sorted_wf|].
  intros k. rewrite (leaf_keys_get _ _ _ _ _ Hwf).
  unfold BTree_get in Hget. rewrite Hget. split.
  - intros [s [= Hs]]. by eapply reference_Some_inhabited.
  - intros [d Hd]. pose proof (reference_spec ops k) as Href.
    destruct (reference ops !! k) as [s|]; [eauto|]. by destruct (Href d).
Qed.

(** Every posting set stored in a leaf of a built tree holds exactly the
    documents inserted under the key of its slot, and is not empty. *)
Theorem leaf_slots_exact ops :
  ∃ t, build ops = Ok t ∧
       ∀ keys values i k s,
         BTreeLeaf keys values ∈ subtrees (root t) →
         keys !! i = Some k → values !! i = Some s →
         (∀ d, d ∈ s ↔ (k, d) ∈ ops) ∧ s ≠ ∅.
Proof.
  destruct (build_ok ops) as (t & Hbuild & [h Hwf] & Hget).
  exists t. split; [done|]. intros keys values i k s Hin Hk Hv.
  pose proof (leaf_slot_get _ _ _ _ _ _ _ _ _ Hwf Hin Hk Hv) as Hslot.
  unfold BTree_get in Hget. rewrite Hget in Hslot. injection Hslot as Hs.
  pose proof (reference_spec ops k) as Href. rewrite Hs in Href.
  split; [done|]. destruct (reference_Some_inhabited _ _ _ Hs) as [d Hd].
  apply Href in Hd. set_solver.
Qed.

(** ** Growth *)

Lemma BTree_insert_wf_height t key value h :
  wf h None None (root t) →
  ∃ t', BTree_insert t key value = Ok t' ∧
        wf (if full (root t) then S h else h) None None (root t').
Proof.
  intros Hwf. unfold BTree_insert. rewrite (wf_height _ _ _ _ Hwf).
  replace (2 * h + 5) with (S (S (2 * h + 3))) by lia.
  remember (2 * h + 3) as fuel eqn:Hfuel.
  rewrite BTree_insert_fuel_S. destruct (full (root t)) eqn:Hfull.
  - destruct (root_split_wf _ _ Hwf Hfull)
      as (m & l & r & e1 & Hsplit & Hnew & Hwf1 & Hfull1 & _).
    rewrite Hsplit. simpl. rewrite Hnew. simpl. rewrite Hfull1.
    destruct (elem_insert_ok (S h) fuel None None e1 key value
                Hwf1 Hfull1 I I ltac:(lia)) as (e' & -> & Hwf' & _).
    simpl. by eexists.
  - destruct (elem_insert_ok h (S fuel) None None (root t) key value
                Hwf Hfull I I ltac:(lia)) as (e' & -> & Hwf' & _).
    simpl. by eexists.
Qed.

(** An insertion into a built tree raises the height of the tree by one when
    the root is full, and leaves it unchanged otherwise. *)
Theorem insert_height ops key docId :
  ∃ t t', build ops = Ok t ∧ BTree_insert t key docId = Ok t' ∧
          height (root t') =
          if full (root t) then S (height (root t)) else height (root t).
Proof.
  destruct (build_ok ops) as (t & Hbuild & [h Hwf] & _).
  destruct (BTree_insert_wf_height t key docId h Hwf) as (t' & Hins & Hwf').
  exists t, t'. split; [done|]. split; [done|].
  rewrite (wf_height _ _ _ _ Hwf), (wf_height _ _ _ _ Hwf').
  by destruct (full (root t)).
Qed.
